(** * hypercorn/protocol/quic.py: the QUIC connection demultiplexer

    A shallow embedding of [QuicProtocol] (datagram ingress, version
    negotiation, connection registry, event dispatch, egress flush and
    timer scheduling) together with the properties its specification
    states about it.

    The protocol engine (aioquic) and the scheduler primitives are
    collaborators of the class: they appear here as an interface
    ([Engine]) over which every definition and theorem is generic. *)

From Stdlib Require Import ZArith Strings.Byte.
From stdpp Require Import base option list gmap strings.

Set Default Proof Using "Type".
Open Scope Z_scope.

(** ** Data *)

(** Python [bytes]. *)
Abbreviation bytes := (list byte).

#[global] Instance byte_eq_dec : EqDecision byte := Byte.byte_eq_dec.

#[global] Instance byte_countable : Countable byte :=
  inj_countable Byte.to_N Byte.of_N Byte.of_to_N.

(** [Optional[Tuple[str, int]]]: a peer address, or [None]. *)
Definition Address : Type := option (string * Z).

(** hypercorn.events: the events [handle] receives and [send] emits. *)
Inductive Event : Type :=
| RawData (data : bytes) (address : Address)
| Closed
| Updated.

(** aioquic.quic.events: what [QuicConnection.next_event] yields. The four
    classes the dispatcher inspects, and one constructor for all the others
    (handshake completed, stream data received, ...), told apart by a tag. *)
Inductive QuicEvent : Type :=
| ConnectionIdIssued (connection_id : bytes)
| ConnectionIdRetired (connection_id : bytes)
| ConnectionTerminated (error_code : Z) (reason_phrase : string)
| ProtocolNegotiated (alpn_protocol : option string)
| OtherQuicEvent (tag : nat).

#[global] Instance QuicEvent_eq_dec : EqDecision QuicEvent.
Proof. solve_decision. Defined.

(** The fields of aioquic's [QuicHeader] that [handle] reads. *)
Record QuicHeader : Type := {
  version : option Z;
  packet_type : Z;
  destination_cid : bytes;
  source_cid : bytes
}.

(** Python exceptions that can travel through this module. *)
Inductive Exn : Type :=
| ValueError (msg : string)
| BufferReadError
| KeyError (key : bytes).

(** A [QuicConnection] object is referred to by its identity: the registry
    and the session map hold references, the objects live in a heap. *)
Abbreviation ConnRef := nat.

(** Modelled from the spec: [H3Protocol] (hypercorn/protocol/h3.py) is the
    session layer; the file is not part of the sources at hand. The
    specification describes it as a factory that takes the client address,
    the server address, the connection handle and an egress-flush callback
    bound to that connection, and returns an object that consumes the
    connection's events opaquely. A session is therefore its constructor
    arguments, the order number of its construction (its identity) and the
    events handed to its [handle], oldest first. *)
Record H3Protocol : Type := {
  h3_client : Address;
  h3_server : Address;
  h3_connection : ConnRef;
  h3_serial : nat;
  h3_handled : list QuicEvent
}.

(** Modelled from the spec: [H3Protocol.handle(event)] consumes the event. *)
Definition h3_handle (event : QuicEvent) (s : H3Protocol) : H3Protocol :=
  {| h3_client := h3_client s;
     h3_server := h3_server s;
     h3_connection := h3_connection s;
     h3_serial := h3_serial s;
     h3_handled := h3_handled s ++ [event] |}.

(** ** The collaborators

    aioquic's header parser, version-negotiation encoder and connection
    object, and the clock handed to [QuicProtocol.__init__]. Methods that
    mutate the connection return its next state. [pull_quic_header] takes
    the payload and [host_cid_length] and raises or returns a header;
    [encode_quic_version_negotiation] takes [source_cid], [destination_cid]
    and [supported_versions], in this order. [QuicConnection_init n] is the
    object the [n]-th construction yields (it draws its host identifier at
    random); [now n] is the [n]-th reading of the clock. *)
Class Engine : Type := {
  Time : Type;
  QuicConnection : Type;
  PACKET_TYPE_INITIAL : Z;
  supported_versions : list Z;
  pull_quic_header : bytes → nat → Exn + QuicHeader;
  encode_quic_version_negotiation : bytes → bytes → list Z → bytes;
  QuicConnection_init : nat → QuicConnection;
  host_cid : QuicConnection → bytes;
  receive_datagram : bytes → Address → Time → QuicConnection → QuicConnection;
  next_event : QuicConnection → option QuicEvent * QuicConnection;
  datagrams_to_send : Time → QuicConnection → list (bytes * Address) * QuicConnection;
  get_timer : QuicConnection → option Time;
  _close_at : QuicConnection → option Time;
  handle_timer : Time → QuicConnection → QuicConnection;
  now : nat → Time
}.

Section Protocol.
Context `{Engine}.

(** ** State

    The two dictionaries of [QuicProtocol], its [server] attribute, and what
    the calls it makes act on: the connection objects, the datagrams given
    to [send], the callbacks given to [call_at] (each is
    [partial(self._handle_timer, connection)], so the deadline and the
    connection determine it), the number of clock readings, and the number
    of sessions built. *)
Record State : Type := {
  connections : gmap bytes ConnRef;
  http_connections : gmap ConnRef H3Protocol;
  server : Address;
  heap : gmap ConnRef QuicConnection;
  allocated : nat;
  sent : list Event;
  scheduled : list (Time * ConnRef);
  clock : nat;
  h3_built : nat
}.

(** Field updates. *)
Definition set_connections (f : gmap bytes ConnRef → gmap bytes ConnRef) (s : State) : State :=
  {| connections := f (connections s); http_connections := http_connections s;
     server := server s; heap := heap s; allocated := allocated s; sent := sent s;
     scheduled := scheduled s; clock := clock s; h3_built := h3_built s |}.

Definition set_http_connections
    (f : gmap ConnRef H3Protocol → gmap ConnRef H3Protocol) (s : State) : State :=
  {| connections := connections s; http_connections := f (http_connections s);
     server := server s; heap := heap s; allocated := allocated s; sent := sent s;
     scheduled := scheduled s; clock := clock s; h3_built := h3_built s |}.

Definition set_heap
    (f : gmap ConnRef QuicConnection → gmap ConnRef QuicConnection) (s : State) : State :=
  {| connections := connections s; http_connections := http_connections s;
     server := server s; heap := f (heap s); allocated := allocated s; sent := sent s;
     scheduled := scheduled s; clock := clock s; h3_built := h3_built s |}.

Definition set_allocated (f : nat → nat) (s : State) : State :=
  {| connections := connections s; http_connections := http_connections s;
     server := server s; heap := heap s; allocated := f (allocated s); sent := sent s;
     scheduled := scheduled s; clock := clock s; h3_built := h3_built s |}.

Definition set_sent (f : list Event → list Event) (s : State) : State :=
  {| connections := connections s; http_connections := http_connections s;
     server := server s; heap := heap s; allocated := allocated s; sent := f (sent s);
     scheduled := scheduled s; clock := clock s; h3_built := h3_built s |}.

Definition set_scheduled
    (f : list (Time * ConnRef) → list (Time * ConnRef)) (s : State) : State :=
  {| connections := connections s; http_connections := http_connections s;
     server := server s; heap := heap s; allocated := allocated s; sent := sent s;
     scheduled := f (scheduled s); clock := clock s; h3_built := h3_built s |}.

Definition set_clock (f : nat → nat) (s : State) : State :=
  {| connections := connections s; http_connections := http_connections s;
     server := server s; heap := heap s; allocated := allocated s; sent := sent s;
     scheduled := scheduled s; clock := f (clock s); h3_built := h3_built s |}.

Definition set_h3_built (f : nat → nat) (s : State) : State :=
  {| connections := connections s; http_connections := http_connections s;
     server := server s; heap := heap s; allocated := allocated s; sent := sent s;
     scheduled := scheduled s; clock := clock s; h3_built := f (h3_built s) |}.

(** ** Effects

    A coroutine of the class either returns, or raises with the state it had
    reached. Two more outcomes belong to the model only: [Dangling], a
    method call through a reference that has no object (no state built by
    the class itself has one), and [OutOfFuel], the [while] loop cut off. *)
Inductive Outcome (A : Type) : Type :=
| Return (a : A) (s : State)
| Raise (e : Exn) (s : State)
| Dangling
| OutOfFuel.
Arguments Return {A} a s.
Arguments Raise {A} e s.
Arguments Dangling {A}.
Arguments OutOfFuel {A}.

Definition M (A : Type) : Type := State → Outcome A.

Definition ret {A} (a : A) : M A := λ s, Return a s.

Definition bind {A B} (m : M A) (k : A → M B) : M B :=
  λ s, match m s with
       | Return a s' => k a s'
       | Raise e s' => Raise e s'
       | Dangling => Dangling
       | OutOfFuel => OutOfFuel
       end.

Notation "'let*' x ':=' m 'in' k" := (bind m (λ x, k))
  (at level 10, x name, m at level 100, k at level 200).
Notation "m '>>' k" := (bind m (λ _, k))
  (at level 100, k at level 200, right associativity).

(** [self.now()] *)
Definition self_now : M Time :=
  λ s, Return (now (clock s)) (set_clock S s).

(** [await self.send(event)] *)
Definition self_send (event : Event) : M unit :=
  λ s, Return tt (set_sent (λ l, l ++ [event]) s).

(** [self.call_at(timer, partial(self._handle_timer, connection))] *)
Definition self_call_at (timer : Time) (connection : ConnRef) : M unit :=
  λ s, Return tt (set_scheduled (λ l, l ++ [(timer, connection)]) s).

(** A mutating method of a connection object. *)
Definition call {A} (connection : ConnRef) (method : QuicConnection → A * QuicConnection) : M A :=
  λ s, match heap s !! connection with
       | Some q => let '(a, q') := method q in
                   Return a (set_heap (insert connection q') s)
       | None => Dangling
       end.

(** An attribute or a method that only reads. *)
Definition attr {A} (connection : ConnRef) (field : QuicConnection → A) : M A :=
  λ s, match heap s !! connection with
       | Some q => Return (field q) s
       | None => Dangling
       end.

(** [QuicConnection(configuration=self.quic_config, original_connection_id=None)] *)
Definition new_QuicConnection : M ConnRef :=
  λ s, Return (allocated s)
         (set_allocated S (set_heap (insert (allocated s) (QuicConnection_init (allocated s))) s)).

(** [self.connections.get(key)] *)
Definition connections_get (key : bytes) : M (option ConnRef) :=
  λ s, Return (connections s !! key) s.

(** [self.connections[key] = connection] *)
Definition connections_setitem (key : bytes) (connection : ConnRef) : M unit :=
  λ s, Return tt (set_connections (insert key connection) s).

(** [del self.connections[key]]: a [KeyError] when the key is absent. *)
Definition connections_delitem (key : bytes) : M unit :=
  λ s, match connections s !! key with
       | Some _ => Return tt (set_connections (delete key) s)
       | None => Raise (KeyError key) s
       end.

(** [self.http_connections[connection] = H3Protocol(self.config, client,
    self.server, self.spawn_app, connection, partial(self.send_all, connection))] *)
Definition http_connections_setitem_new (connection : ConnRef) (client : Address) : M unit :=
  λ s, Return tt
         (set_h3_built S
            (set_http_connections
               (insert connection
                  {| h3_client := client; h3_server := server s;
                     h3_connection := connection; h3_serial := h3_built s;
                     h3_handled := [] |}) s)).

(** [if connection in self.http_connections:
        await self.http_connections[connection].handle(event)] *)
Definition forward (connection : ConnRef) (event : QuicEvent) : M unit :=
  λ s, match http_connections s !! connection with
       | Some h => Return tt (set_http_connections (insert connection (h3_handle event h)) s)
       | None => Return tt s
       end.

(** ** The methods of [QuicProtocol] *)

(** The [for] loop of [send_all]. *)
Fixpoint send_each (datagrams : list (bytes * Address)) : M unit :=
  match datagrams with
  | [] => ret tt
  | (data, address) :: rest => self_send (RawData data address) >> send_each rest
  end.

Definition send_all (connection : ConnRef) : M unit :=
  let* t := self_now in
  let* datagrams := call connection (datagrams_to_send t) in
  send_each datagrams.

(** One turn of the [while] loop of [_handle_events], up to the forwarding
    to the session: the reaction to the kind of the event, then the
    forwarding. *)
Definition dispatch_event (connection : ConnRef) (client : Address) (event : QuicEvent) : M unit :=
  (match event with
   | ConnectionTerminated _ _ => ret tt
   | ProtocolNegotiated _ => http_connections_setitem_new connection client
   | ConnectionIdIssued connection_id => connections_setitem connection_id connection
   | ConnectionIdRetired connection_id => connections_delitem connection_id
   | OtherQuicEvent _ => ret tt
   end) >>
  forward connection event.

(** The [while event is not None] loop; [event] is the event in hand. *)
Fixpoint _handle_events_loop (fuel : nat) (connection : ConnRef) (client : Address)
    (event : option QuicEvent) : M unit :=
  match event with
  | None => ret tt
  | Some ev =>
      match fuel with
      | O => λ _, OutOfFuel
      | S fuel' =>
          dispatch_event connection client ev >>
          let* event' := call connection next_event in
          _handle_events_loop fuel' connection client event'
      end
  end.

(** The loop with the call of [next_event] that precedes it. *)
Definition drain (fuel : nat) (connection : ConnRef) (client : Address) : M unit :=
  let* event := call connection next_event in
  _handle_events_loop fuel connection client event.

(** What follows the loop: the flush, then the timer. *)
Definition flush_and_schedule (connection : ConnRef) : M unit :=
  send_all connection >>
  let* timer := attr connection get_timer in
  match timer with
  | Some t => self_call_at t connection
  | None => ret tt
  end.

Definition _handle_events (fuel : nat) (connection : ConnRef) (client : Address) : M unit :=
  drain fuel connection client >>
  flush_and_schedule connection.

Definition _handle_timer (fuel : nat) (connection : ConnRef) : M unit :=
  let* close_at := attr connection _close_at in
  match close_at with
  | Some _ =>
      let* t := self_now in
      call connection (λ q, (tt, handle_timer t q)) >>
      _handle_events fuel connection None
  | None => ret tt
  end.

(** [header.version is not None and header.version not in supported_versions] *)
Definition unsupported_version (header : QuicHeader) : bool :=
  match version header with
  | Some v => bool_decide (v ∉ supported_versions)
  | None => false
  end.

Definition handle (fuel : nat) (event : Event) : M unit :=
  match event with
  | RawData data address =>
      let* header := (λ s, match pull_quic_header data 8 with
                           | inl e => Raise e s
                           | inr h => Return h s
                           end) in
      if unsupported_version header then
        self_send (RawData (encode_quic_version_negotiation
                              (destination_cid header) (source_cid header)
                              supported_versions) address)
      else
        let* found := connections_get (destination_cid header) in
        let* connection :=
          match found with
          | None =>
              if bool_decide (packet_type header = PACKET_TYPE_INITIAL) then
                let* c := new_QuicConnection in
                connections_setitem (destination_cid header) c >>
                let* cid := attr c host_cid in
                connections_setitem cid c >>
                ret (Some c)
              else ret None
          | Some c => ret (Some c)
          end in
        match connection with
        | Some c =>
            let* t := self_now in
            call c (λ q, (tt, receive_datagram data address t q)) >>
            _handle_events fuel c address
        | None => ret tt
        end
  | Closed => ret tt
  | Updated => ret tt
  end.

(** ** Reading the engine's queue

    [pending k q]: the events [next_event] yields from [q] until it yields
    [None], and the connection it leaves, when [k] calls are enough. *)
Fixpoint pending (k : nat) (q : QuicConnection) : option (list QuicEvent * QuicConnection) :=
  match k with
  | O => None
  | S k' =>
      match next_event q with
      | (None, q') => Some ([], q')
      | (Some e, q1) =>
          match pending k' q1 with
          | Some (es, q') => Some (e :: es, q')
          | None => None
          end
      end
  end.

(** The turns of the loop on a given list of events, without the engine. *)
Fixpoint dispatch_events (connection : ConnRef) (client : Address) (events : list QuicEvent)
    : M unit :=
  match events with
  | [] => ret tt
  | e :: rest => dispatch_event connection client e >> dispatch_events connection client rest
  end.

Definition is_negotiated (e : QuicEvent) : bool :=
  match e with ProtocolNegotiated _ => true | _ => false end.

(** How many of the events are [ProtocolNegotiated]. *)
Fixpoint negotiations (events : list QuicEvent) : nat :=
  match events with
  | [] => O
  | e :: rest => ((if is_negotiated e then 1 else 0) + negotiations rest)%nat
  end.

(** A session after it has consumed [events]. *)
Definition h3_extend (events : list QuicEvent) (s : H3Protocol) : H3Protocol :=
  {| h3_client := h3_client s;
     h3_server := h3_server s;
     h3_connection := h3_connection s;
     h3_serial := h3_serial s;
     h3_handled := h3_handled s ++ events |}.

(** The state [flush_and_schedule] leaves when the connection object is [q]. *)
Definition flushed (connection : ConnRef) (q : QuicConnection) (s : State) : State :=
  let '(datagrams, q') := datagrams_to_send (now (clock s)) q in
  let s' := set_sent (λ l, l ++ map (λ d, RawData d.1 d.2) datagrams)
              (set_heap (insert connection q') (set_clock S s)) in
  match get_timer q' with
  | Some t => set_scheduled (λ l, l ++ [(t, connection)]) s'
  | None => s'
  end.

(** The identifiers under which the registry holds a connection. *)
Definition identifiers_of (connection : ConnRef) (registry : gmap bytes ConnRef) : gset bytes :=
  dom (filter (λ kv, kv.2 = connection) registry).

(** An engine that behaves: it retires only identifiers that are live, that
    is, issued (or live from the start) and not retired since. *)
Fixpoint well_behaved (live : gset bytes) (events : list QuicEvent) : bool :=
  match events with
  | [] => true
  | ConnectionIdIssued i :: rest => well_behaved (live ∪ {[i]}) rest
  | ConnectionIdRetired i :: rest => bool_decide (i ∈ live) && well_behaved (live ∖ {[i]}) rest
  | _ :: rest => well_behaved live rest
  end.

(** A change of state under an outcome. *)
Definition on_state {A} (g : State → State) (o : Outcome A) : Outcome A :=
  match o with
  | Return a s => Return a (g s)
  | Raise e s => Raise e (g s)
  | Dangling => Dangling
  | OutOfFuel => OutOfFuel
  end.

(** What a turn of the loop leaves alone. *)
Definition same_environment (s s' : State) : Prop :=
  heap s' = heap s ∧ sent s' = sent s ∧ scheduled s' = scheduled s ∧
  clock s' = clock s ∧ allocated s' = allocated s ∧ server s' = server s.

(** The session a [ProtocolNegotiated] event builds, before it consumes
    anything. *)
Definition h3_new (connection : ConnRef) (client : Address) (s : State) : H3Protocol :=
  {| h3_client := client; h3_server := server s; h3_connection := connection;
     h3_serial := h3_built s; h3_handled := [] |}.

(** The registry after the turns on [events], read off the events alone. *)
Fixpoint registry_after (connection : ConnRef) (events : list QuicEvent)
    (registry : gmap bytes ConnRef) : gmap bytes ConnRef :=
  match events with
  | [] => registry
  | ConnectionIdIssued i :: rest => registry_after connection rest (<[i:=connection]> registry)
  | ConnectionIdRetired i :: rest => registry_after connection rest (delete i registry)
  | _ :: rest => registry_after connection rest registry
  end.

(** The identifiers the events issue or retire. *)
Fixpoint named (events : list QuicEvent) : gset bytes :=
  match events with
  | [] => ∅
  | ConnectionIdIssued i :: rest => {[i]} ∪ named rest
  | ConnectionIdRetired i :: rest => {[i]} ∪ named rest
  | _ :: rest => named rest
  end.

(** The states the class builds: the objects are those of the references
    handed out so far; the registry, the session map and the callbacks refer
    to such references only; a session is stored under the connection it was
    built for, and was built before the count of sessions stood where it
    stands. *)
Definition well_formed (s : State) : Prop :=
  (∀ c, is_Some (heap s !! c) ↔ (c < allocated s)%nat) ∧
  (∀ k c, connections s !! k = Some c → (c < allocated s)%nat) ∧
  (∀ c h, http_connections s !! c = Some h →
          (c < allocated s)%nat ∧ h3_connection h = c ∧ (h3_serial h < h3_built s)%nat) ∧
  (∀ t c, (t, c) ∈ scheduled s → (c < allocated s)%nat).

(** An outcome that is no dangling call, and whose state, if it has one,
    satisfies [P]. *)
Definition sound {A} (P : State → Prop) (o : Outcome A) : Prop :=
  match o with
  | Return _ s => P s
  | Raise _ s => P s
  | Dangling => False
  | OutOfFuel => True
  end.

(** The identifiers of the connection of a batch after the turns on
    [events], read off the events alone: each [ConnectionIdIssued] adds
    one, each [ConnectionIdRetired] takes one away. The live identifiers of
    [well_behaved] evolve in the same way. *)
Fixpoint identifiers_after (events : list QuicEvent) (ids : gset bytes) : gset bytes :=
  match events with
  | [] => ids
  | ConnectionIdIssued i :: rest => identifiers_after rest (ids ∪ {[i]})
  | ConnectionIdRetired i :: rest => identifiers_after rest (ids ∖ {[i]})
  | _ :: rest => identifiers_after rest ids
  end.

End Protocol.

Arguments Return {_ A} a s.
Arguments Raise {_ A} e s.
Arguments Dangling {_ A}.
Arguments OutOfFuel {_ A}.

(** ** A scripted engine

    An engine small enough to run the class on concrete datagrams. Its
    datagrams start with a type byte and a version byte (version byte zero:
    a header without version), then the destination identifier, of the
    length the caller assumes, then the source identifier. Its connections
    hold queues, and scripts that [receive_datagram] and [handle_timer]
    move into the event queue. *)
Module Scripted.

Record Conn : Type := {
  sc_host_cid : bytes;
  sc_events : list QuicEvent;
  sc_outbox : list (bytes * Address);
  sc_timer : option nat;
  sc_close_at : option nat;
  sc_on_datagram : list QuicEvent;
  sc_on_timer : list QuicEvent
}.

Definition parse (data : bytes) (host_cid_length : nat) : Exn + QuicHeader :=
  match data with
  | first :: v :: rest =>
      if (length rest <? host_cid_length)%nat then inl BufferReadError
      else inr {| version := if decide (v = x00) then None
                             else Some (Z.of_N (Byte.to_N v));
                  packet_type := Z.of_N (Byte.to_N first);
                  destination_cid := take host_cid_length rest;
                  source_cid := drop host_cid_length rest |}
  | _ => inl BufferReadError
  end.

Definition encode (source destination : bytes) (versions : list Z) : bytes :=
  x80 :: x00 :: destination ++ source.

Definition init (n : nat) : Conn :=
  {| sc_host_cid := replicate 8 (default x00 (Byte.of_N (N.of_nat n)));
     sc_events := [];
     sc_outbox := [];
     sc_timer := None;
     sc_close_at := None;
     sc_on_datagram := [ProtocolNegotiated (Some "h3-22"%string)];
     sc_on_timer := [] |}.

Definition receive (data : bytes) (address : Address) (t : nat) (q : Conn) : Conn :=
  {| sc_host_cid := sc_host_cid q;
     sc_events := sc_events q ++ sc_on_datagram q;
     sc_outbox := sc_outbox q ++ [([x01], address)];
     sc_timer := Some (S t);
     sc_close_at := Some (t + 60)%nat;
     sc_on_datagram := [];
     sc_on_timer := sc_on_timer q |}.

Definition pop (q : Conn) : option QuicEvent * Conn :=
  match sc_events q with
  | [] => (None, q)
  | e :: rest =>
      (Some e,
       {| sc_host_cid := sc_host_cid q; sc_events := rest; sc_outbox := sc_outbox q;
          sc_timer := sc_timer q; sc_close_at := sc_close_at q;
          sc_on_datagram := sc_on_datagram q; sc_on_timer := sc_on_timer q |})
  end.

Definition flush (t : nat) (q : Conn) : list (bytes * Address) * Conn :=
  (sc_outbox q,
   {| sc_host_cid := sc_host_cid q; sc_events := sc_events q; sc_outbox := [];
      sc_timer := sc_timer q; sc_close_at := sc_close_at q;
      sc_on_datagram := sc_on_datagram q; sc_on_timer := sc_on_timer q |}).

Definition expire (t : nat) (q : Conn) : Conn :=
  {| sc_host_cid := sc_host_cid q;
     sc_events := sc_events q ++ sc_on_timer q;
     sc_outbox := sc_outbox q;
     sc_timer := None;
     sc_close_at := sc_close_at q;
     sc_on_datagram := sc_on_datagram q;
     sc_on_timer := [] |}.

#[export] Instance engine : Engine := {|
  Time := nat;
  QuicConnection := Conn;
  PACKET_TYPE_INITIAL := 0xC0;
  supported_versions := [22];
  pull_quic_header := parse;
  encode_quic_version_negotiation := encode;
  QuicConnection_init := init;
  host_cid := sc_host_cid;
  receive_datagram := receive;
  next_event := pop;
  datagrams_to_send := flush;
  get_timer := sc_timer;
  _close_at := sc_close_at;
  handle_timer := expire;
  now := λ n, n
|}.

(** A connection object with a given event queue and nothing else. *)
Definition queued (events : list QuicEvent) : Conn :=
  {| sc_host_cid := replicate 8 x00; sc_events := events; sc_outbox := [];
     sc_timer := None; sc_close_at := None; sc_on_datagram := []; sc_on_timer := [] |}.

(** The state of a [QuicProtocol] just built. *)
Definition fresh : State :=
  {| connections := ∅; http_connections := ∅; server := Some ("0.0.0.0"%string, 4433);
     heap := ∅; allocated := 0; sent := []; scheduled := []; clock := 0; h3_built := 0 |}.

(** A state with one connection object, number 0, known under [key]. *)
Definition one_connection (key : bytes) (q : Conn) : State :=
  {| connections := {[ key := 0%nat ]}; http_connections := ∅;
     server := Some ("0.0.0.0"%string, 4433);
     heap := {[ 0%nat := q ]}; allocated := 1; sent := []; scheduled := [];
     clock := 0; h3_built := 0 |}.

Definition peer : Address := Some ("192.0.2.7"%string, 50000).

(** What a run leaves, as lists: the registry and the sessions. *)
Definition registry_of (o : Outcome unit) : option (list (bytes * ConnRef)) :=
  match o with
  | Return _ s => Some (map_to_list (connections s))
  | _ => None
  end.

Definition sessions_of (o : Outcome unit) : option (list (ConnRef * H3Protocol)) :=
  match o with
  | Return _ s => Some (map_to_list (http_connections s))
  | _ => None
  end.

End Scripted.

(** ** A restless engine

    An engine whose connections always have one more event to yield. *)
Module Restless.

#[export] Instance engine : Engine := {|
  Time := nat;
  QuicConnection := nat;
  PACKET_TYPE_INITIAL := 0xC0;
  supported_versions := [22];
  pull_quic_header := Scripted.parse;
  encode_quic_version_negotiation := Scripted.encode;
  QuicConnection_init := λ _, O;
  host_cid := λ _, replicate 8 x00;
  receive_datagram := λ _ _ _ q, q;
  next_event := λ q, (Some (OtherQuicEvent q), S q);
  datagrams_to_send := λ _ q, ([], q);
  get_timer := λ _, None;
  _close_at := λ _, None;
  handle_timer := λ _ q, q;
  now := λ n, n
|}.

(** A state with one connection object, number 0, known under [key]. *)
Definition one_connection (key : bytes) : State :=
  {| connections := {[ key := 0%nat ]}; http_connections := ∅; server := None;
     heap := {[ 0%nat := 0%nat ]}; allocated := 1; sent := []; scheduled := [];
     clock := 0; h3_built := 0 |}.

End Restless.

(** ** Lemmas on the effects *)

Section Lemmas.
Context `{Engine}.

Lemma set_heap_insert_insert c q1 q2 s :
  set_heap (insert c q2) (set_heap (insert c q1) s) = set_heap (insert c q2) s.
Proof. unfold set_heap; simpl. by rewrite insert_insert_eq. Qed.

Lemma dispatch_event_heap c client e f s :
  dispatch_event c client e (set_heap f s) = on_state (set_heap f) (dispatch_event c client e s).
Proof.
  unfold dispatch_event, bind, forward.
  destruct e; simpl; try (destruct (http_connections s !! c); reflexivity).
  - unfold connections_delitem; simpl.
    destruct (connections s !! connection_id); simpl; [|reflexivity].
    destruct (http_connections s !! c); reflexivity.
  - rewrite !lookup_insert_eq. reflexivity.
Qed.

Lemma dispatch_events_heap c client evs f s :
  dispatch_events c client evs (set_heap f s)
  = on_state (set_heap f) (dispatch_events c client evs s).
Proof.
  revert s; induction evs as [|e evs IH]; intros s; [reflexivity|].
  simpl. unfold bind. rewrite dispatch_event_heap.
  destruct (dispatch_event c client e s) as [[] s1| | |]; simpl; auto.
Qed.

Lemma dispatch_events_app c client evs1 evs2 s :
  dispatch_events c client (evs1 ++ evs2) s
  = bind (dispatch_events c client evs1) (λ _, dispatch_events c client evs2) s.
Proof.
  revert s; induction evs1 as [|e evs1 IH]; intros s; simpl.
  - reflexivity.
  - unfold bind in *. destruct (dispatch_event c client e s) as [[] s1| | |]; auto.
Qed.

Lemma pending_length k q evs q' : pending k q = Some (evs, q') → (length evs < k)%nat.
Proof.
  revert q evs q'; induction k as [|k IH]; intros q evs q'; simpl; [done|].
  destruct (next_event q) as [[e|] q1].
  - destruct (pending k q1) as [[es q2]|] eqn:E; [|done].
    intros [= <- <-]. apply IH in E. simpl. lia.
  - intros [= <- <-]. simpl. lia.
Qed.

(** The loop on the engine is the turns on the events the engine holds. *)
Lemma drain_returns fuel c client s q evs q' s1 :
  heap s !! c = Some q →
  pending (S fuel) q = Some (evs, q') →
  dispatch_events c client evs s = Return tt s1 →
  drain fuel c client s = Return tt (set_heap (insert c q') s1).
Proof.
  revert s q evs s1; induction fuel as [|fuel IH]; intros s q evs s1 Hq Hp Hd.
  - simpl in Hp. unfold drain, bind, call. rewrite Hq.
    destruct (next_event q) as [[e|] q1]; [done|].
    injection Hp as <- <-. simpl in *. injection Hd as <-. reflexivity.
  - change (pending (S (S fuel)) q) with
      (match next_event q with
       | (None, q') => Some ([], q')
       | (Some e, q1) =>
           match pending (S fuel) q1 with
           | Some (es, q') => Some (e :: es, q')
           | None => None
           end
       end) in Hp.
    unfold drain, bind at 1, call. rewrite Hq.
    destruct (next_event q) as [[e|] q1].
    + destruct (pending (S fuel) q1) as [[es q2]|] eqn:E; [|done].
      injection Hp as <- <-.
      simpl in Hd. unfold bind at 1 in Hd.
      destruct (dispatch_event c client e s) as [[] s2| | |] eqn:Ee; try done.
      cbn [_handle_events_loop]. unfold bind at 1.
      rewrite dispatch_event_heap, Ee. simpl.
      change (drain fuel c client (set_heap (insert c q1) s2)
              = Return tt (set_heap (insert c q2) s1)).
      rewrite (IH (set_heap (insert c q1) s2) q1 es (set_heap (insert c q1) s1)).
      * by rewrite set_heap_insert_insert.
      * simpl. apply lookup_insert_eq.
      * exact E.
      * by rewrite dispatch_events_heap, Hd.
    + injection Hp as <- <-. simpl in *. injection Hd as <-. reflexivity.
Qed.

Lemma drain_raises fuel c client s q evs q' x s1 :
  heap s !! c = Some q →
  pending (S fuel) q = Some (evs, q') →
  dispatch_events c client evs s = Raise x s1 →
  ∃ q'', drain fuel c client s = Raise x (set_heap (insert c q'') s1).
Proof.
  revert s q evs s1; induction fuel as [|fuel IH]; intros s q evs s1 Hq Hp Hd.
  - simpl in Hp. destruct (next_event q) as [[e|] q1]; [done|].
    injection Hp as <- <-. done.
  - change (pending (S (S fuel)) q) with
      (match next_event q with
       | (None, q') => Some ([], q')
       | (Some e, q1) =>
           match pending (S fuel) q1 with
           | Some (es, q') => Some (e :: es, q')
           | None => None
           end
       end) in Hp.
    unfold drain, bind at 1, call. rewrite Hq.
    destruct (next_event q) as [[e|] q1]; [|by injection Hp as <- <-].
    destruct (pending (S fuel) q1) as [[es q2]|] eqn:E; [|done].
    injection Hp as <- <-.
    simpl in Hd. unfold bind at 1 in Hd.
    cbn [_handle_events_loop]. unfold bind at 1.
    rewrite dispatch_event_heap.
    destruct (dispatch_event c client e s) as [[] s2| | |] eqn:Ee; try done.
    + simpl.
      change (∃ q'', drain fuel c client (set_heap (insert c q1) s2)
                     = Raise x (set_heap (insert c q'') s1)).
      destruct (IH (set_heap (insert c q1) s2) q1 es (set_heap (insert c q1) s1))
        as [q'' Hq'']; [apply lookup_insert_eq|exact E|by rewrite dispatch_events_heap, Hd|].
      exists q''. by rewrite Hq'', set_heap_insert_insert.
    + injection Hd as <- <-. exists q1. reflexivity.
Qed.

Lemma send_each_spec datagrams s :
  send_each datagrams s
  = Return tt (set_sent (λ l, l ++ map (λ d, RawData d.1 d.2) datagrams) s).
Proof.
  revert s; induction datagrams as [|[data address] rest IH]; intros s; simpl.
  - unfold ret, set_sent. rewrite app_nil_r. by destruct s.
  - unfold bind, self_send. rewrite IH. unfold set_sent; simpl.
    by rewrite <- app_assoc.
Qed.

Lemma flush_and_schedule_spec c q s :
  heap s !! c = Some q →
  flush_and_schedule c s = Return tt (flushed c q s).
Proof.
  intros Hq. unfold flush_and_schedule, send_all, flushed, bind, self_now, call, attr.
  simpl. rewrite Hq.
  destruct (datagrams_to_send (now (clock s)) q) as [ds q1].
  rewrite send_each_spec. simpl. rewrite lookup_insert_eq.
  destruct (get_timer q1); reflexivity.
Qed.

Lemma same_environment_refl s : same_environment s s.
Proof. by repeat split. Qed.

Lemma same_environment_trans s1 s2 s3 :
  same_environment s1 s2 → same_environment s2 s3 → same_environment s1 s3.
Proof. unfold same_environment. intros (?&?&?&?&?&?) (?&?&?&?&?&?). repeat split; congruence. Qed.

(** One turn, event by event. *)
Lemma dispatch_event_issued c client i s :
  dispatch_event c client (ConnectionIdIssued i) s
  = forward c (ConnectionIdIssued i) (set_connections (insert i c) s).
Proof. reflexivity. Qed.

Lemma dispatch_event_retired c client i s :
  dispatch_event c client (ConnectionIdRetired i) s
  = match connections s !! i with
    | Some _ => forward c (ConnectionIdRetired i) (set_connections (delete i) s)
    | None => Raise (KeyError i) s
    end.
Proof.
  unfold dispatch_event, bind, connections_delitem.
  by destruct (connections s !! i).
Qed.

Lemma forward_spec c e s :
  ∃ s', forward c e s = Return tt s' ∧
        connections s' = connections s ∧ h3_built s' = h3_built s ∧
        same_environment s s' ∧
        http_connections s' !! c = h3_handle e <$> http_connections s !! c ∧
        ∀ c', c' ≠ c → http_connections s' !! c' = http_connections s !! c'.
Proof.
  unfold forward. destruct (http_connections s !! c) as [h|] eqn:E.
  - eexists; split; [reflexivity|]. simpl.
    repeat split; [apply lookup_insert_eq|]. intros c' Hc'. by apply lookup_insert_ne.
  - eexists; split; [reflexivity|]. rewrite E. by repeat split.
Qed.

Lemma dispatch_event_returns c client e s s' :
  dispatch_event c client e s = Return tt s' →
  same_environment s s' ∧
  connections s' = match e with
                   | ConnectionIdIssued i => <[i:=c]> (connections s)
                   | ConnectionIdRetired i => delete i (connections s)
                   | _ => connections s
                   end ∧
  h3_built s' = (if is_negotiated e then S (h3_built s) else h3_built s) ∧
  http_connections s' !! c
    = (if is_negotiated e then Some (h3_handle e (h3_new c client s))
       else h3_handle e <$> http_connections s !! c) ∧
  ∀ c', c' ≠ c → http_connections s' !! c' = http_connections s !! c'.
Proof.
  destruct e as [i|i|code reason|alpn|tag].
  - rewrite dispatch_event_issued.
    destruct (forward_spec c (ConnectionIdIssued i) (set_connections (insert i c) s))
      as (s1 & -> & Hc & Hb & He & Hh & Ho).
    intros [= <-]. simpl in *. done.
  - rewrite dispatch_event_retired. destruct (connections s !! i); [|done].
    destruct (forward_spec c (ConnectionIdRetired i) (set_connections (delete i) s))
      as (s1 & -> & Hc & Hb & He & Hh & Ho).
    intros [= <-]. simpl in *. done.
  - change (dispatch_event c client (ConnectionTerminated code reason) s)
      with (forward c (ConnectionTerminated code reason) s).
    destruct (forward_spec c (ConnectionTerminated code reason) s)
      as (s1 & -> & Hc & Hb & He & Hh & Ho).
    intros [= <-]. simpl in *. done.
  - unfold dispatch_event, bind, http_connections_setitem_new, forward. simpl.
    rewrite lookup_insert_eq. intros [= <-]. simpl.
    repeat split; try done.
    + rewrite insert_insert_eq. apply lookup_insert_eq.
    + intros c' Hc'. rewrite insert_insert_eq. by apply lookup_insert_ne.
  - change (dispatch_event c client (OtherQuicEvent tag) s)
      with (forward c (OtherQuicEvent tag) s).
    destruct (forward_spec c (OtherQuicEvent tag) s)
      as (s1 & -> & Hc & Hb & He & Hh & Ho).
    intros [= <-]. simpl in *. done.
Qed.

(** Only the removal of an absent identifier makes a turn raise, and it
    raises before anything is changed. *)
Lemma dispatch_event_outcome c client e s :
  (∃ s', dispatch_event c client e s = Return tt s') ∨
  (∃ i, e = ConnectionIdRetired i ∧ connections s !! i = None ∧
        dispatch_event c client e s = Raise (KeyError i) s).
Proof.
  destruct e as [i|i|code reason|alpn|tag].
  - left. rewrite dispatch_event_issued.
    destruct (forward_spec c (ConnectionIdIssued i) (set_connections (insert i c) s))
      as (s1 & -> & _). eauto.
  - rewrite dispatch_event_retired. destruct (connections s !! i) eqn:E.
    + left. destruct (forward_spec c (ConnectionIdRetired i) (set_connections (delete i) s))
        as (s1 & -> & _). eauto.
    + right. exists i. done.
  - left. destruct (forward_spec c (ConnectionTerminated code reason) s) as (s1 & Hs1 & _).
    exists s1. exact Hs1.
  - left. unfold dispatch_event, bind, http_connections_setitem_new, forward. simpl.
    rewrite lookup_insert_eq. eauto.
  - left. destruct (forward_spec c (OtherQuicEvent tag) s) as (s1 & Hs1 & _).
    exists s1. exact Hs1.
Qed.

(** The turns on a list of events. *)
Lemma dispatch_events_cons c client e evs s s' :
  dispatch_events c client (e :: evs) s = Return tt s' ↔
  ∃ s0, dispatch_event c client e s = Return tt s0 ∧
        dispatch_events c client evs s0 = Return tt s'.
Proof.
  simpl. unfold bind. split.
  - destruct (dispatch_event c client e s) as [[] s0| | |]; try done. eauto.
  - intros (s0 & -> & Hs0). exact Hs0.
Qed.

Lemma dispatch_events_split c client pre rest s s' :
  dispatch_events c client (pre ++ rest) s = Return tt s' ↔
  ∃ s0, dispatch_events c client pre s = Return tt s0 ∧
        dispatch_events c client rest s0 = Return tt s'.
Proof.
  rewrite dispatch_events_app. unfold bind. split.
  - destruct (dispatch_events c client pre s) as [[] s0| | |]; try done. eauto.
  - intros (s0 & -> & Hs0). exact Hs0.
Qed.

Lemma h3_extend_handle e evs h : h3_extend evs (h3_handle e h) = h3_extend (e :: evs) h.
Proof. unfold h3_extend, h3_handle; simpl. by rewrite <- app_assoc. Qed.

Lemma h3_extend_nil h : h3_extend [] h = h.
Proof. destruct h. unfold h3_extend; simpl. by rewrite app_nil_r. Qed.

Lemma dispatch_events_frame c client evs s s' :
  dispatch_events c client evs s = Return tt s' →
  same_environment s s' ∧
  h3_built s' = (h3_built s + negotiations evs)%nat ∧
  ∀ c', c' ≠ c → http_connections s' !! c' = http_connections s !! c'.
Proof.
  revert s; induction evs as [|e evs IH]; intros s.
  - intros [= <-]. simpl. split; [apply same_environment_refl|]. split; [lia|done].
  - rewrite dispatch_events_cons. intros (s0 & He & Hs0).
    apply dispatch_event_returns in He as (Henv & _ & Hb & _ & Ho).
    apply IH in Hs0 as (Henv' & Hb' & Ho').
    split; [by eapply same_environment_trans|]. split.
    + rewrite Hb', Hb. simpl. destruct (is_negotiated e); lia.
    + intros c' Hc'. rewrite Ho', Ho by done. done.
Qed.

(** Without a negotiation among them, the events all reach the session
    that was there, and build none. *)
Lemma dispatch_events_quiet c client evs s s' :
  Forall (λ e, is_negotiated e = false) evs →
  dispatch_events c client evs s = Return tt s' →
  http_connections s' !! c = h3_extend evs <$> http_connections s !! c.
Proof.
  intros Hq; revert s; induction Hq as [|e evs He Hq IH]; intros s.
  - intros [= <-]. simpl. destruct (http_connections s !! c); simpl; [|done].
    by rewrite h3_extend_nil.
  - rewrite dispatch_events_cons. intros (s0 & Hd & Hs0).
    apply dispatch_event_returns in Hd as (_ & _ & _ & Hh & _).
    rewrite He in Hh. rewrite (IH _ Hs0), Hh.
    destruct (http_connections s !! c); simpl; [|done].
    by rewrite h3_extend_handle.
Qed.

(** After the last negotiation among them, the session is the one that
    negotiation built, and it holds that event and those after it. *)
Lemma dispatch_events_negotiated c client pre e post s s' :
  is_negotiated e = true →
  Forall (λ e, is_negotiated e = false) post →
  dispatch_events c client (pre ++ e :: post) s = Return tt s' →
  ∃ s0, dispatch_events c client pre s = Return tt s0 ∧
        http_connections s' !! c = Some (h3_extend (e :: post) (h3_new c client s0)).
Proof.
  intros He Hpost. rewrite dispatch_events_split.
  intros (s0 & Hpre & Hrest). exists s0. split; [done|].
  apply dispatch_events_cons in Hrest as (s1 & Hd & Hs1).
  apply dispatch_event_returns in Hd as (_ & _ & _ & Hh & _).
  rewrite He in Hh. rewrite (dispatch_events_quiet _ _ _ _ _ Hpost Hs1), Hh. simpl.
  by rewrite h3_extend_handle.
Qed.

(** A list of events has a last negotiation, or none. *)
Lemma last_negotiation evs :
  Forall (λ e, is_negotiated e = false) evs ∨
  ∃ pre e post, evs = pre ++ e :: post ∧ is_negotiated e = true ∧
                Forall (λ e, is_negotiated e = false) post.
Proof.
  induction evs as [|e evs [IH|(pre & e' & post & -> & He' & Hpost)]].
  - by left.
  - destruct (is_negotiated e) eqn:He.
    + right. exists [], e, evs. done.
    + left. by constructor.
  - right. exists (e :: pre), e', post. done.
Qed.

(** A well-behaved stream never makes a turn raise: the live identifiers
    stay in the registry. *)
Lemma well_behaved_prefix c client pre rest live s :
  (∀ i, i ∈ live → is_Some (connections s !! i)) →
  well_behaved live (pre ++ rest) = true →
  ∃ s0 live0, dispatch_events c client pre s = Return tt s0 ∧
              (∀ i, i ∈ live0 → is_Some (connections s0 !! i)) ∧
              well_behaved live0 rest = true.
Proof.
  revert live s; induction pre as [|e pre IH]; intros live s Hlive Hwb.
  - exists s, live. done.
  - assert (∃ s1 live1, dispatch_event c client e s = Return tt s1 ∧
              (∀ i, i ∈ live1 → is_Some (connections s1 !! i)) ∧
              well_behaved live1 (pre ++ rest) = true) as (s1 & live1 & Hd & Hlive1 & Hwb1).
    { destruct (dispatch_event_outcome c client e s) as [[s1 Hs1]|(i & -> & Hi & _)].
      - pose proof (dispatch_event_returns _ _ _ _ _ Hs1) as (_ & Hc & _).
        destruct e as [i|i|code reason|alpn|tag]; simpl in Hwb.
        + exists s1, (live ∪ {[i]}). split; [done|]. split; [|done].
          intros j Hj. rewrite Hc. destruct (decide (i = j)) as [->|Hne].
          * rewrite lookup_insert_eq. eauto.
          * rewrite lookup_insert_ne by done. apply Hlive.
            apply elem_of_union in Hj as [Hj|Hj]; [done|].
            by apply elem_of_singleton in Hj.
        + apply andb_true_iff in Hwb as [_ Hwb].
          exists s1, (live ∖ {[i]}). split; [done|]. split; [|done].
          intros j Hj. rewrite Hc. apply elem_of_difference in Hj as [Hj Hne].
          rewrite lookup_delete_ne; [by apply Hlive|].
          intros ->. by apply Hne, elem_of_singleton.
        + exists s1, live. rewrite Hc. done.
        + exists s1, live. rewrite Hc. done.
        + exists s1, live. rewrite Hc. done.
      - simpl in Hwb. apply andb_true_iff in Hwb as [Hin _].
        apply bool_decide_eq_true in Hin. apply Hlive in Hin as [? Hin]. congruence. }
    destruct (IH live1 s1 Hlive1 Hwb1) as (s0 & live0 & Hpre & Hlive0 & Hwb0).
    exists s0, live0. split; [|done]. apply dispatch_events_cons. eauto.
Qed.

(** The whole of [_handle_events], when no turn raises. *)
Lemma handle_events_returns fuel c client s q evs q' s1 :
  heap s !! c = Some q →
  pending (S fuel) q = Some (evs, q') →
  dispatch_events c client evs s = Return tt s1 →
  _handle_events fuel c client s
  = Return tt (flushed c q' (set_heap (insert c q') s1)).
Proof.
  intros Hq Hp Hd. unfold _handle_events, bind.
  rewrite (drain_returns _ _ _ _ _ _ _ _ Hq Hp Hd).
  apply flush_and_schedule_spec. simpl. apply lookup_insert_eq.
Qed.

Lemma handle_events_raises fuel c client s q evs q' x s1 :
  heap s !! c = Some q →
  pending (S fuel) q = Some (evs, q') →
  dispatch_events c client evs s = Raise x s1 →
  ∃ q'', _handle_events fuel c client s = Raise x (set_heap (insert c q'') s1).
Proof.
  intros Hq Hp Hd. unfold _handle_events, bind.
  destruct (drain_raises _ _ _ _ _ _ _ _ _ Hq Hp Hd) as [q'' ->]. eauto.
Qed.

(** The loop neither sends nor schedules, nor reads the clock. *)
Lemma loop_frame fuel c client ev s s1 :
  _handle_events_loop fuel c client ev s = Return tt s1 →
  sent s1 = sent s ∧ scheduled s1 = scheduled s ∧ clock s1 = clock s ∧
  allocated s1 = allocated s.
Proof.
  revert ev s; induction fuel as [|fuel IH]; intros [e|] s; simpl; try done.
  - by intros [= <-].
  - unfold bind, call.
    destruct (dispatch_event c client e s) as [[] s2| | |] eqn:Ee; try done.
    apply dispatch_event_returns in Ee as ((Hh & Hs & Hsc & Hcl & Ha & _) & _).
    destruct (heap s2 !! c) as [q|]; [|done].
    destruct (next_event q) as [ev' q1]. intros Hl.
    apply IH in Hl as (? & ? & ? & ?). simpl in *. repeat split; congruence.
  - by intros [= <-].
Qed.

Lemma drain_frame fuel c client s s1 :
  drain fuel c client s = Return tt s1 →
  sent s1 = sent s ∧ scheduled s1 = scheduled s ∧ clock s1 = clock s ∧
  allocated s1 = allocated s.
Proof.
  unfold drain, bind, call. destruct (heap s !! c) as [q|]; [|done].
  destruct (next_event q) as [ev q1]. intros Hl.
  apply loop_frame in Hl. exact Hl.
Qed.

Lemma unsupported_version_false header :
  version header = None ∨ (∃ v, version header = Some v ∧ v ∈ supported_versions) →
  unsupported_version header = false.
Proof.
  unfold unsupported_version. intros [->|(v & -> & Hv)]; [done|].
  apply bool_decide_eq_false. tauto.
Qed.

(** The flush and the timer leave the two dictionaries alone. *)
Lemma flushed_frame c q s :
  connections (flushed c q s) = connections s ∧
  http_connections (flushed c q s) = http_connections s ∧
  h3_built (flushed c q s) = h3_built s ∧
  allocated (flushed c q s) = allocated s.
Proof.
  unfold flushed. destruct (datagrams_to_send (now (clock s)) q) as [ds q1].
  destruct (get_timer q1); done.
Qed.

Lemma flushed_output c q s :
  sent (flushed c q s)
  = sent s ++ map (λ d, RawData d.1 d.2) (datagrams_to_send (now (clock s)) q).1 ∧
  scheduled (flushed c q s)
  = scheduled s ++ match get_timer (datagrams_to_send (now (clock s)) q).2 with
                   | Some t => [(t, c)]
                   | None => []
                   end ∧
  heap (flushed c q s) !! c = Some (datagrams_to_send (now (clock s)) q).2 ∧
  clock (flushed c q s) = S (clock s).
Proof.
  unfold flushed. destruct (datagrams_to_send (now (clock s)) q) as [ds q1]. simpl.
  destruct (get_timer q1); simpl; rewrite lookup_insert_eq, ?app_nil_r; done.
Qed.

(** A stream that retires only identifiers the registry holds when their
    turn comes makes [_handle_events] return. *)
Lemma batch_returns fuel c client s q evs q' :
  heap s !! c = Some q →
  pending (S fuel) q = Some (evs, q') →
  well_behaved (dom (connections s)) evs = true →
  ∃ s1, dispatch_events c client evs s = Return tt s1 ∧
        _handle_events fuel c client s
        = Return tt (flushed c q' (set_heap (insert c q') s1)).
Proof.
  intros Hq Hp Hwb.
  destruct (well_behaved_prefix c client evs [] (dom (connections s)) s)
    as (s1 & _ & Hs1 & _).
  - intros i Hi. by apply elem_of_dom.
  - by rewrite app_nil_r.
  - exists s1. split; [done|]. by eapply handle_events_returns.
Qed.

(** A turn that removes an absent identifier stops the batch. *)
Lemma dispatch_events_key_error c client pre i post s s0 :
  dispatch_events c client pre s = Return tt s0 →
  connections s0 !! i = None →
  dispatch_events c client (pre ++ ConnectionIdRetired i :: post) s
  = Raise (KeyError i) s0.
Proof.
  intros Hpre Hi. rewrite dispatch_events_app. unfold bind. rewrite Hpre.
  simpl. unfold bind. rewrite dispatch_event_retired, Hi. reflexivity.
Qed.

Lemma negotiations_app evs1 evs2 :
  negotiations (evs1 ++ evs2) = (negotiations evs1 + negotiations evs2)%nat.
Proof. induction evs1 as [|e evs1 IH]; simpl; [done|]. rewrite IH. lia. Qed.

Lemma negotiations_zero evs :
  negotiations evs = O ↔ Forall (λ e, is_negotiated e = false) evs.
Proof.
  induction evs as [|e evs IH]; simpl.
  - split; [by constructor|done].
  - rewrite Forall_cons, <- IH. destruct (is_negotiated e); split.
    + lia.
    + by intros [? _].
    + intros Hz. split; [done|lia].
    + intros [_ ?]. lia.
Qed.

(** Where [handle] hands over to [_handle_events]. *)
Lemma handle_known fuel data address s header c q :
  pull_quic_header data 8 = inr header →
  unsupported_version header = false →
  connections s !! destination_cid header = Some c →
  heap s !! c = Some q →
  handle fuel (RawData data address) s
  = _handle_events fuel c address
      (set_heap (insert c (receive_datagram data address (now (clock s)) q))
         (set_clock S s)).
Proof.
  intros Hp Hv Hc Hq. unfold handle, bind. rewrite Hp, Hv.
  unfold connections_get. rewrite Hc. unfold ret, self_now, call. simpl.
  by rewrite Hq.
Qed.

Lemma handle_initial fuel data address s header :
  pull_quic_header data 8 = inr header →
  unsupported_version header = false →
  connections s !! destination_cid header = None →
  packet_type header = PACKET_TYPE_INITIAL →
  handle fuel (RawData data address) s
  = _handle_events fuel (allocated s) address
      (set_heap
         (insert (allocated s)
            (receive_datagram data address (now (clock s))
               (QuicConnection_init (allocated s))))
         (set_clock S
            (set_connections
               (λ _, <[host_cid (QuicConnection_init (allocated s)) := allocated s]>
                       (<[destination_cid header := allocated s]> (connections s)))
               (set_allocated S
                  (set_heap (insert (allocated s) (QuicConnection_init (allocated s))) s))))).
Proof.
  intros Hp Hv Hc Ht. unfold handle, bind. rewrite Hp, Hv.
  unfold connections_get. rewrite Hc, bool_decide_eq_true_2 by done.
  unfold new_QuicConnection, connections_setitem, attr, ret, self_now, call. simpl.
  rewrite lookup_insert_eq. simpl. rewrite lookup_insert_eq.
  unfold set_heap, set_clock, set_connections, set_allocated; simpl.
  by rewrite insert_insert_eq.
Qed.

Lemma handle_timer_active fuel c s q d :
  heap s !! c = Some q →
  _close_at q = Some d →
  _handle_timer fuel c s
  = _handle_events fuel c None
      (set_heap (insert c (handle_timer (now (clock s)) q)) (set_clock S s)).
Proof.
  intros Hq Hd. unfold _handle_timer, bind, attr, self_now, call. rewrite Hq, Hd.
  simpl. by rewrite Hq.
Qed.

Lemma handle_timer_idle fuel c s q :
  heap s !! c = Some q →
  _close_at q = None →
  _handle_timer fuel c s = Return tt s.
Proof.
  intros Hq Hd. unfold _handle_timer, bind, attr. by rewrite Hq, Hd.
Qed.

(** A batch that drains a [ProtocolNegotiated] event leaves a session built
    with the client address the batch was entered with. *)
Lemma batch_session_client fuel c client s q evs q' :
  heap s !! c = Some q →
  pending (S fuel) q = Some (evs, q') →
  well_behaved (dom (connections s)) evs = true →
  negotiations evs ≠ O →
  ∃ s' h, _handle_events fuel c client s = Return tt s' ∧
          http_connections s' !! c = Some h ∧ h3_client h = client.
Proof.
  intros Hq Hp Hwb Hn.
  destruct (batch_returns fuel c client s q evs q' Hq Hp Hwb) as (s1 & Hd & Hrun).
  destruct (last_negotiation evs) as [Hquiet|(pre & e & post & -> & He & Hpost)].
  - by apply negotiations_zero in Hquiet.
  - destruct (dispatch_events_negotiated _ _ _ _ _ _ _ He Hpost Hd) as (s0 & _ & Hh).
    eexists _, _. split; [exact Hrun|].
    destruct (flushed_frame c q' (set_heap (insert c q') s1)) as (_ & -> & _).
    simpl. split; [exact Hh|reflexivity].
Qed.

(** The identifiers of a connection are the keys that lead to it. *)
Lemma elem_of_identifiers_of (c : ConnRef) (registry : gmap bytes ConnRef) (i : bytes) :
  i ∈ identifiers_of c registry ↔ registry !! i = Some c.
Proof.
  unfold identifiers_of. rewrite elem_of_dom. split.
  - intros [c' Hc']. apply map_lookup_filter_Some in Hc' as [Hc' Heq].
    simpl in Heq. by subst.
  - intros Hi. exists c. by apply map_lookup_filter_Some.
Qed.

Lemma identifiers_of_insert (c : ConnRef) (registry : gmap bytes ConnRef) (i : bytes) :
  identifiers_of c (<[i:=c]> registry) = {[i]} ∪ identifiers_of c registry.
Proof.
  apply set_eq; intros j.
  rewrite elem_of_union, elem_of_singleton, !elem_of_identifiers_of.
  destruct (decide (i = j)) as [->|Hne].
  - rewrite lookup_insert_eq. split; [by left|done].
  - rewrite lookup_insert_ne by done. split; [by right|]. by intros [->|?].
Qed.

Lemma identifiers_of_delete (c : ConnRef) (registry : gmap bytes ConnRef) (i : bytes) :
  identifiers_of c (delete i registry) = identifiers_of c registry ∖ {[i]}.
Proof.
  apply set_eq; intros j.
  rewrite elem_of_difference, elem_of_singleton, !elem_of_identifiers_of.
  destruct (decide (i = j)) as [->|Hne].
  - rewrite lookup_delete_eq. split; [done|]. by intros [_ ?].
  - rewrite lookup_delete_ne by done. split; [|by intros [? _]].
    intros ?. split; [done|]. by intros ->.
Qed.

End Lemmas.

(** ** The properties of the specification *)

(** C1, as the code has it. A [RawData] event whose payload the header
    parser rejects leaves the state as it was: no datagram goes out, the
    registry and the session map are unchanged. The parser's exception is
    not caught, though: [handle] raises it to its caller. *)
Theorem C1_parse_error_propagates `{Engine} (fuel : nat) (data : bytes) (address : Address)
    (s : State) (e : Exn) :
  pull_quic_header data 8 = inl e →
  handle fuel (RawData data address) s = Raise e s.
Proof.
  intros Hp. unfold handle, bind. by rewrite Hp.
Qed.

Lemma C1_parse_error_propagates_witness :
  @pull_quic_header Scripted.engine [] 8 = inl BufferReadError ∧
  @handle Scripted.engine 0 (RawData [] Scripted.peer) Scripted.fresh
  = Raise BufferReadError Scripted.fresh.
Proof.
  split; [reflexivity|].
  apply (@C1_parse_error_propagates Scripted.engine). reflexivity.
Defined.

(** C1 as stated fails: on the scripted engine the empty datagram cannot be
    parsed, and [handle] does not return on it. *)
Lemma C1_silent_drop_counterexample :
  @pull_quic_header Scripted.engine [] 8 = inl BufferReadError ∧
  @handle Scripted.engine 1 (RawData [] Scripted.peer) Scripted.fresh
  ≠ Return tt Scripted.fresh.
Proof. split; [reflexivity|]. discriminate. Qed.

(** C3. A [RawData] event whose header carries a version outside the
    supported set makes [handle] send one version-negotiation datagram to
    the address the datagram came from, with the header's destination
    identifier as source and its source identifier as destination, and
    nothing else: the registry, the session map and the connection objects
    are those of before, and no connection is built. *)
Theorem C3_version_negotiation `{Engine} (fuel : nat) (data : bytes) (address : Address)
    (s : State) (header : QuicHeader) (v : Z) :
  pull_quic_header data 8 = inr header →
  version header = Some v →
  v ∉ supported_versions →
  handle fuel (RawData data address) s
  = Return tt
      (set_sent
         (λ l, l ++ [RawData (encode_quic_version_negotiation
                                (destination_cid header) (source_cid header)
                                supported_versions) address]) s).
Proof.
  intros Hp Hv Hn. unfold handle, bind. rewrite Hp.
  unfold unsupported_version. rewrite Hv, bool_decide_eq_true_2 by done.
  reflexivity.
Qed.

Lemma C3_version_negotiation_witness :
  let data := [xc0; x63; x01; x02; x03; x04; x05; x06; x07; x08; x0a; x0b] in
  @handle Scripted.engine 0 (RawData data Scripted.peer) Scripted.fresh
  = Return tt
      (set_sent
         (λ l, l ++ [RawData [x80; x00; x0a; x0b; x01; x02; x03; x04; x05; x06; x07; x08]
                       Scripted.peer]) Scripted.fresh).
Proof.
  intros data.
  apply (@C3_version_negotiation Scripted.engine 0 data Scripted.peer Scripted.fresh
           {| version := Some 99; packet_type := 192;
              destination_cid := [x01; x02; x03; x04; x05; x06; x07; x08];
              source_cid := [x0a; x0b] |} 99).
  - reflexivity.
  - reflexivity.
  - intros Hin. apply list_elem_of_singleton in Hin. discriminate Hin.
Defined.

(** C9. A [RawData] event with a parsed header, a supported or absent
    version, a destination identifier the registry does not hold and a
    packet type other than the initial one is dropped: [handle] returns and
    the state is the one it started from. *)
Theorem C9_unknown_non_initial_dropped `{Engine} (fuel : nat) (data : bytes)
    (address : Address) (s : State) (header : QuicHeader) :
  pull_quic_header data 8 = inr header →
  version header = None ∨ (∃ v, version header = Some v ∧ v ∈ supported_versions) →
  connections s !! destination_cid header = None →
  packet_type header ≠ PACKET_TYPE_INITIAL →
  handle fuel (RawData data address) s = Return tt s.
Proof.
  intros Hp Hv Hc Ht. unfold handle, bind. rewrite Hp.
  rewrite (unsupported_version_false _ Hv).
  unfold connections_get. rewrite Hc.
  by rewrite bool_decide_eq_false_2.
Qed.

Lemma C9_unknown_non_initial_dropped_witness :
  let data := [x40; x00; x01; x02; x03; x04; x05; x06; x07; x08] in
  @handle Scripted.engine 0 (RawData data Scripted.peer) Scripted.fresh
  = Return tt Scripted.fresh.
Proof.
  intros data.
  apply (@C9_unknown_non_initial_dropped Scripted.engine 0 data Scripted.peer Scripted.fresh
           {| version := None; packet_type := 64;
              destination_cid := [x01; x02; x03; x04; x05; x06; x07; x08];
              source_cid := [] |}).
  - reflexivity.
  - left. reflexivity.
  - reflexivity.
  - vm_compute. discriminate.
Defined.

(** C4, as the code has it. An initial datagram with an acceptable version
    and a destination identifier the registry does not hold makes [handle]
    build one connection object, store it in the registry under the
    header's destination identifier and then under the object's own host
    identifier, feed the datagram to the object and run [_handle_events] on
    it. No other key of the registry changes. The registry has two more
    entries when the host identifier differs from the destination
    identifier and was not in the registry; the second entry replaces or
    coincides with an existing one otherwise. *)
Theorem C4_initial_creates_connection `{Engine} (fuel : nat) (data : bytes)
    (address : Address) (s : State) (header : QuicHeader) :
  pull_quic_header data 8 = inr header →
  version header = None ∨ (∃ v, version header = Some v ∧ v ∈ supported_versions) →
  connections s !! destination_cid header = None →
  packet_type header = PACKET_TYPE_INITIAL →
  let c := allocated s in
  let q := QuicConnection_init c in
  let registry := <[host_cid q := c]> (<[destination_cid header := c]> (connections s)) in
  let s1 := set_connections (λ _, registry)
              (set_allocated S (set_heap (insert c q) s)) in
  handle fuel (RawData data address) s
  = _handle_events fuel c address
      (set_heap (insert c (receive_datagram data address (now (clock s)) q))
         (set_clock S s1)) ∧
  heap s1 = <[c := q]> (heap s) ∧
  allocated s1 = S (allocated s) ∧
  registry !! destination_cid header = Some c ∧
  registry !! host_cid q = Some c ∧
  (∀ k, k ≠ destination_cid header → k ≠ host_cid q →
        registry !! k = connections s !! k) ∧
  (host_cid q ≠ destination_cid header → connections s !! host_cid q = None →
   size registry = S (S (size (connections s)))).
Proof.
  intros Hp Hv Hc Ht c q registry s1. repeat split.
  - apply handle_initial; [done|by apply unsupported_version_false|done|done].
  - subst registry. destruct (decide (host_cid q = destination_cid header)) as [->|Hne].
    + apply lookup_insert_eq.
    + rewrite lookup_insert_ne by done. apply lookup_insert_eq.
  - apply lookup_insert_eq.
  - intros k Hk1 Hk2. subst registry. by rewrite !lookup_insert_ne.
  - intros Hne Hfresh. subst registry.
    rewrite map_size_insert_None, map_size_insert_None; [done|done|].
    by rewrite lookup_insert_ne.
Qed.

Lemma C4_initial_creates_connection_witness :
  let data := [xc0; x16; x01; x02; x03; x04; x05; x06; x07; x08] in
  ∃ s1, @handle Scripted.engine 2 (RawData data Scripted.peer) Scripted.fresh
        = @_handle_events Scripted.engine 2 0%nat Scripted.peer s1 ∧
        allocated s1 = 1%nat ∧
        size (<[replicate 8 x00 := 0%nat]>
                (<[[x01; x02; x03; x04; x05; x06; x07; x08] := 0%nat]>
                   (connections Scripted.fresh))) = 2%nat.
Proof.
  intros data.
  pose proof (@C4_initial_creates_connection Scripted.engine 2 data Scripted.peer
                Scripted.fresh
                {| version := Some 22; packet_type := 192;
                   destination_cid := [x01; x02; x03; x04; x05; x06; x07; x08];
                   source_cid := [] |}) as Hc4.
  destruct Hc4 as (Hrun & _ & _ & _ & _ & _ & Hsize).
  - reflexivity.
  - right. exists 22. split; [reflexivity|]. apply list_elem_of_here.
  - apply lookup_empty.
  - reflexivity.
  - eexists. split; [exact Hrun|]. split; [reflexivity|].
    apply Hsize; [discriminate|apply lookup_empty].
Defined.

(** C4 as stated fails when the engine draws, as host identifier, the very
    identifier the client chose: the registry, empty before, then holds one
    entry, not two. *)
Lemma C4_two_entries_counterexample :
  let data := [xc0; x16; x00; x00; x00; x00; x00; x00; x00; x00] in
  @pull_quic_header Scripted.engine data 8
  = inr {| version := Some 22; packet_type := @PACKET_TYPE_INITIAL Scripted.engine;
           destination_cid := replicate 8 x00; source_cid := [] |} ∧
  22 ∈ @supported_versions Scripted.engine ∧
  @host_cid Scripted.engine (@QuicConnection_init Scripted.engine 0) = replicate 8 x00 ∧
  map_to_list (connections Scripted.fresh) = [] ∧
  Scripted.registry_of
    (@handle Scripted.engine 2 (RawData data Scripted.peer) Scripted.fresh)
  = Some [(replicate 8 x00, 0%nat)].
Proof.
  repeat split; try (vm_compute; reflexivity). apply list_elem_of_here.
Qed.

(** C2, as the code has it. A batch builds one session for every
    [ProtocolNegotiated] event it drains, and no other: the connection has
    a session afterwards exactly when it had one before or such an event
    was drained, and the sessions of other connections are untouched. There
    is no guard against a second event: each one builds a new session and
    stores it in place of the one that was there, without an error; what
    the map holds at the end is the session built by the last one. *)
Theorem C2_session_per_negotiation `{Engine} (fuel : nat) (c : ConnRef) (client : Address)
    (s : State) (q q' : QuicConnection) (evs : list QuicEvent) :
  heap s !! c = Some q →
  pending (S fuel) q = Some (evs, q') →
  well_behaved (dom (connections s)) evs = true →
  ∃ s', _handle_events fuel c client s = Return tt s' ∧
        h3_built s' = (h3_built s + negotiations evs)%nat ∧
        (is_Some (http_connections s' !! c) ↔
         is_Some (http_connections s !! c) ∨ negotiations evs ≠ O) ∧
        (∀ c', c' ≠ c → http_connections s' !! c' = http_connections s !! c') ∧
        (∀ pre e post,
           evs = pre ++ e :: post → is_negotiated e = true → negotiations post = O →
           ∃ h, http_connections s' !! c = Some h ∧
                h3_serial h = (h3_built s + negotiations pre)%nat ∧
                h3_client h = client ∧ h3_connection h = c ∧
                h3_handled h = e :: post).
Proof.
  intros Hq Hp Hwb.
  destruct (batch_returns fuel c client s q evs q' Hq Hp Hwb) as (s1 & Hd & Hrun).
  eexists. split; [exact Hrun|].
  destruct (flushed_frame c q' (set_heap (insert c q') s1)) as (_ & -> & -> & _).
  simpl.
  pose proof (dispatch_events_frame _ _ _ _ _ Hd) as (_ & Hb & Ho).
  split; [exact Hb|]. split; [|split; [exact Ho|]].
  - destruct (last_negotiation evs) as [Hquiet|(pre & e & post & -> & He & Hpost)].
    + rewrite (dispatch_events_quiet _ _ _ _ _ Hquiet Hd).
      apply negotiations_zero in Hquiet. rewrite Hquiet, fmap_is_Some.
      split; [by left|]. intros [?|?]; done.
    + destruct (dispatch_events_negotiated _ _ _ _ _ _ _ He Hpost Hd) as (s0 & _ & ->).
      split; [|by eauto]. intros _. right.
      rewrite negotiations_app. simpl. rewrite He. lia.
  - intros pre e post -> He Hpost. apply negotiations_zero in Hpost.
    destruct (dispatch_events_negotiated _ _ _ _ _ _ _ He Hpost Hd) as (s0 & Hpre & ->).
    eexists. split; [reflexivity|]. simpl.
    apply dispatch_events_frame in Hpre as (_ & -> & _). done.
Qed.

Lemma C2_session_per_negotiation_witness :
  let first := ProtocolNegotiated (Some "h3-22"%string) in
  let second := ProtocolNegotiated (Some "h3-23"%string) in
  let s := Scripted.one_connection [x01] (Scripted.queued [first; second]) in
  ∃ s', @_handle_events Scripted.engine 2 0%nat Scripted.peer s = Return tt s' ∧
        h3_built s' = 2%nat ∧
        ∃ h, http_connections s' !! 0%nat = Some h ∧ h3_serial h = 1%nat ∧
             h3_handled h = [second].
Proof.
  intros first second s.
  destruct (@C2_session_per_negotiation Scripted.engine 2 0%nat Scripted.peer s
              (Scripted.queued [first; second]) (Scripted.queued [])
              [first; second])
    as (s' & Hrun & Hb & _ & _ & Hlast).
  - apply lookup_singleton_eq.
  - reflexivity.
  - reflexivity.
  - exists s'. split; [exact Hrun|]. split; [exact Hb|].
    destruct (Hlast [first] second []) as (h & Hh & Hs & _ & _ & Hl); try reflexivity.
    exists h. done.
Defined.

(** C2 as stated fails: with two [ProtocolNegotiated] events in the queue
    the batch returns normally, and the session map holds the second
    session built (number 1), which has seen the second event only; the
    first session is gone. *)
Lemma C2_second_negotiation_counterexample :
  let first := ProtocolNegotiated (Some "h3-22"%string) in
  let second := ProtocolNegotiated (Some "h3-23"%string) in
  let s := Scripted.one_connection [x01] (Scripted.queued [first; second]) in
  Scripted.sessions_of (@_handle_events Scripted.engine 2 0%nat Scripted.peer s)
  = Some [(0%nat, {| h3_client := Scripted.peer;
                     h3_server := Some ("0.0.0.0"%string, 4433);
                     h3_connection := 0%nat; h3_serial := 1%nat;
                     h3_handled := [second] |})].
Proof. vm_compute. reflexivity. Qed.

(** C5. A batch takes the events in the order the engine yields them, one
    turn each (the reaction to the kind of the event, then the forwarding),
    and forwards an event exactly when the connection has a session once
    the reaction is done. So, when no [ProtocolNegotiated] event is among
    them, a session that was there has consumed them all, in order, and no
    session appears; and otherwise the session in place at the end has
    consumed the [ProtocolNegotiated] event that built it and the events
    after it, in order, and nothing else. *)
Theorem C5_forwarding_order `{Engine} (fuel : nat) (c : ConnRef) (client : Address)
    (s : State) (q q' : QuicConnection) (evs : list QuicEvent) :
  heap s !! c = Some q →
  pending (S fuel) q = Some (evs, q') →
  well_behaved (dom (connections s)) evs = true →
  ∃ s1 s',
    dispatch_events c client evs s = Return tt s1 ∧
    _handle_events fuel c client s = Return tt s' ∧
    http_connections s' = http_connections s1 ∧
    (∀ e s0 s2, dispatch_event c client e s0 = Return tt s2 →
       http_connections s2 !! c
       = if is_negotiated e then Some (h3_handle e (h3_new c client s0))
         else h3_handle e <$> http_connections s0 !! c) ∧
    (negotiations evs = O →
     http_connections s' !! c = h3_extend evs <$> http_connections s !! c) ∧
    (∀ pre e post,
       evs = pre ++ e :: post → is_negotiated e = true → negotiations post = O →
       ∃ h, http_connections s' !! c = Some h ∧ h3_handled h = e :: post).
Proof.
  intros Hq Hp Hwb.
  destruct (batch_returns fuel c client s q evs q' Hq Hp Hwb) as (s1 & Hd & Hrun).
  exists s1. eexists. split; [exact Hd|]. split; [exact Hrun|].
  destruct (flushed_frame c q' (set_heap (insert c q') s1)) as (_ & -> & _).
  simpl. split; [done|]. split; [|split].
  - intros e s0 s2 He. by apply dispatch_event_returns in He as (_ & _ & _ & ? & _).
  - intros Hz. apply negotiations_zero in Hz. by eapply dispatch_events_quiet.
  - intros pre e post -> He Hz. apply negotiations_zero in Hz.
    destruct (dispatch_events_negotiated _ _ _ _ _ _ _ He Hz Hd) as (s0 & _ & ->).
    eexists. split; reflexivity.
Qed.

Lemma C5_forwarding_order_witness :
  let evs := [OtherQuicEvent 7; ProtocolNegotiated (Some "h3-22"%string);
              ConnectionIdIssued [x02]; OtherQuicEvent 8] in
  let s := Scripted.one_connection [x01] (Scripted.queued evs) in
  ∃ s', @_handle_events Scripted.engine 4 0%nat Scripted.peer s = Return tt s' ∧
        ∃ h, http_connections s' !! 0%nat = Some h ∧
             h3_handled h = [ProtocolNegotiated (Some "h3-22"%string);
                             ConnectionIdIssued [x02]; OtherQuicEvent 8].
Proof.
  intros evs s.
  destruct (@C5_forwarding_order Scripted.engine 4 0%nat Scripted.peer s
              (Scripted.queued evs) (Scripted.queued []) evs)
    as (s1 & s' & _ & Hrun & _ & _ & _ & Hlast).
  - apply lookup_singleton_eq.
  - reflexivity.
  - reflexivity.
  - exists s'. split; [exact Hrun|].
    apply (Hlast [OtherQuicEvent 7] (ProtocolNegotiated (Some "h3-22"%string))
             [ConnectionIdIssued [x02]; OtherQuicEvent 8]); reflexivity.
Defined.

(** C8. The removal the dispatcher performs for a [ConnectionIdRetired]
    event raises [KeyError] when the registry does not hold the identifier,
    and changes nothing; nothing catches the exception, so [_handle_events]
    raises it too, with the registry and the session map as the turns
    before had left them, and without flushing or scheduling. *)
Theorem C8_retire_absent_raises `{Engine} (fuel : nat) (c : ConnRef) (client : Address)
    (s s0 : State) (q q' : QuicConnection) (pre post : list QuicEvent) (i : bytes) :
  heap s !! c = Some q →
  pending (S fuel) q = Some (pre ++ ConnectionIdRetired i :: post, q') →
  dispatch_events c client pre s = Return tt s0 →
  connections s0 !! i = None →
  connections_delitem i s0 = Raise (KeyError i) s0 ∧
  dispatch_event c client (ConnectionIdRetired i) s0 = Raise (KeyError i) s0 ∧
  ∃ s', _handle_events fuel c client s = Raise (KeyError i) s' ∧
        connections s' = connections s0 ∧
        http_connections s' = http_connections s0 ∧
        sent s' = sent s ∧ scheduled s' = scheduled s.
Proof.
  intros Hq Hp Hpre Hi. split; [|split].
  - unfold connections_delitem. by rewrite Hi.
  - by rewrite dispatch_event_retired, Hi.
  - pose proof (dispatch_events_key_error c client pre i post s s0 Hpre Hi) as Hd.
    destruct (handle_events_raises _ _ _ _ _ _ _ _ _ Hq Hp Hd) as (q'' & Hrun).
    eexists. split; [exact Hrun|]. simpl.
    apply dispatch_events_frame in Hpre as ((_ & Hs & Hsc & _) & _).
    done.
Qed.

Lemma C8_retire_absent_raises_witness :
  let s := Scripted.one_connection [x01]
             (Scripted.queued [ConnectionIdIssued [x02]; ConnectionIdRetired [x09]]) in
  ∃ s', @_handle_events Scripted.engine 2 0%nat Scripted.peer s = Raise (KeyError [x09]) s' ∧
        sent s' = [] ∧ scheduled s' = [].
Proof.
  intros s.
  destruct (@C8_retire_absent_raises Scripted.engine 2 0%nat Scripted.peer s
              (set_connections (insert [x02] 0%nat) s)
              (Scripted.queued [ConnectionIdIssued [x02]; ConnectionIdRetired [x09]])
              (Scripted.queued []) [ConnectionIdIssued [x02]] [] [x09])
    as (_ & _ & s' & Hrun & _ & _ & Hs & Hsc).
  - apply lookup_singleton_eq.
  - reflexivity.
  - reflexivity.
  - vm_compute. reflexivity.
  - exists s'. done.
Defined.

(** C7. When its turns are done, a batch flushes: the datagrams the
    connection holds go to [send], in order, after what was sent before. It
    then asks the connection, as the flush left it, for its timer, and when
    there is one it registers one callback, for that deadline and that
    connection; it registers nothing else. The callback, when it fires, does
    nothing at all when the connection has no closing deadline any more;
    otherwise it has the engine handle the expiry and runs a batch again,
    which flushes and schedules in the same way. *)
Theorem C7_flush_then_timer `{Engine} (fuel : nat) (c : ConnRef) (client : Address)
    (s : State) (q q' : QuicConnection) (evs : list QuicEvent) :
  heap s !! c = Some q →
  pending (S fuel) q = Some (evs, q') →
  well_behaved (dom (connections s)) evs = true →
  let out := datagrams_to_send (now (clock s)) q' in
  (∃ s', _handle_events fuel c client s = Return tt s' ∧
         sent s' = sent s ++ map (λ d, RawData d.1 d.2) out.1 ∧
         heap s' !! c = Some out.2 ∧
         scheduled s' = scheduled s ++ match get_timer out.2 with
                                       | Some t => [(t, c)]
                                       | None => []
                                       end) ∧
  (∀ s0 q0, heap s0 !! c = Some q0 → _close_at q0 = None →
            _handle_timer fuel c s0 = Return tt s0) ∧
  (∀ s0 q0 d, heap s0 !! c = Some q0 → _close_at q0 = Some d →
              _handle_timer fuel c s0
              = _handle_events fuel c None
                  (set_heap (insert c (handle_timer (now (clock s0)) q0))
                     (set_clock S s0))).
Proof.
  intros Hq Hp Hwb out. split; [|split].
  - destruct (batch_returns fuel c client s q evs q' Hq Hp Hwb) as (s1 & Hd & Hrun).
    eexists. split; [exact Hrun|].
    apply dispatch_events_frame in Hd as ((_ & Hs & Hsc & Hcl & _) & _).
    destruct (flushed_output c q' (set_heap (insert c q') s1)) as (-> & -> & -> & _).
    simpl. subst out. rewrite Hs, Hsc, Hcl. done.
  - intros s0 q0. apply handle_timer_idle.
  - intros s0 q0 d. apply handle_timer_active.
Qed.

Lemma C7_flush_then_timer_witness :
  let q := {| Scripted.sc_host_cid := replicate 8 x00;
              Scripted.sc_events := [OtherQuicEvent 1];
              Scripted.sc_outbox := [([x0a], Scripted.peer); ([x0b], Scripted.peer)];
              Scripted.sc_timer := Some 42%nat;
              Scripted.sc_close_at := Some 90%nat;
              Scripted.sc_on_datagram := [];
              Scripted.sc_on_timer := [] |} in
  let s := Scripted.one_connection [x01] q in
  ∃ s', @_handle_events Scripted.engine 1 0%nat Scripted.peer s = Return tt s' ∧
        sent s' = [RawData [x0a] Scripted.peer; RawData [x0b] Scripted.peer] ∧
        scheduled s' = [(42%nat, 0%nat)].
Proof.
  intros q s.
  destruct (@C7_flush_then_timer Scripted.engine 1 0%nat Scripted.peer s q
              (Scripted.pop q).2 [OtherQuicEvent 1])
    as ((s' & Hrun & Hsent & _ & Hsched) & _ & _).
  - apply lookup_singleton_eq.
  - reflexivity.
  - reflexivity.
  - exists s'. split; [exact Hrun|]. split; [exact Hsent|exact Hsched].
Defined.

(** C10. A batch that drains a [ProtocolNegotiated] event builds the
    session with the client address the batch was entered with. The timer
    callback enters it with [None], so a session built then has [None] as
    client; [handle] enters it with the address of the datagram, for a
    connection it found as for one it has just built, so a session built
    then has that address. *)
Theorem C10_session_client_address `{Engine} (fuel : nat) (c : ConnRef) (s : State)
    (q q' : QuicConnection) (d : Time) (evs : list QuicEvent) :
  heap s !! c = Some q →
  _close_at q = Some d →
  pending (S fuel) (handle_timer (now (clock s)) q) = Some (evs, q') →
  well_behaved (dom (connections s)) evs = true →
  negotiations evs ≠ O →
  (∃ s' h, _handle_timer fuel c s = Return tt s' ∧
           http_connections s' !! c = Some h ∧ h3_client h = None) ∧
  (∀ data address header s0 c0 q0 evs0 q0',
     pull_quic_header data 8 = inr header →
     unsupported_version header = false →
     connections s0 !! destination_cid header = Some c0 →
     heap s0 !! c0 = Some q0 →
     pending (S fuel) (receive_datagram data address (now (clock s0)) q0)
     = Some (evs0, q0') →
     well_behaved (dom (connections s0)) evs0 = true →
     negotiations evs0 ≠ O →
     ∃ s' h, handle fuel (RawData data address) s0 = Return tt s' ∧
             http_connections s' !! c0 = Some h ∧ h3_client h = address) ∧
  (∀ data address header s0 evs0 q0',
     pull_quic_header data 8 = inr header →
     unsupported_version header = false →
     connections s0 !! destination_cid header = None →
     packet_type header = PACKET_TYPE_INITIAL →
     pending (S fuel)
       (receive_datagram data address (now (clock s0)) (QuicConnection_init (allocated s0)))
     = Some (evs0, q0') →
     well_behaved
       (dom (<[host_cid (QuicConnection_init (allocated s0)) := allocated s0]>
               (<[destination_cid header := allocated s0]> (connections s0)))) evs0 = true →
     negotiations evs0 ≠ O →
     ∃ s' h, handle fuel (RawData data address) s0 = Return tt s' ∧
             http_connections s' !! allocated s0 = Some h ∧ h3_client h = address).
Proof.
  intros Hq Hd Hp Hwb Hn. split; [|split].
  - rewrite (handle_timer_active fuel c s q d Hq Hd).
    eapply batch_session_client; [apply lookup_insert_eq|exact Hp|exact Hwb|exact Hn].
  - intros data address header s0 c0 q0 evs0 q0' Hp0 Hv0 Hc0 Hq0 Hpe Hwb0 Hn0.
    rewrite (handle_known fuel data address s0 header c0 q0 Hp0 Hv0 Hc0 Hq0).
    eapply batch_session_client; [apply lookup_insert_eq|exact Hpe|exact Hwb0|exact Hn0].
  - intros data address header s0 evs0 q0' Hp0 Hv0 Hc0 Ht0 Hpe Hwb0 Hn0.
    rewrite (handle_initial fuel data address s0 header Hp0 Hv0 Hc0 Ht0).
    eapply batch_session_client; [apply lookup_insert_eq|exact Hpe|exact Hwb0|exact Hn0].
Qed.

Lemma C10_session_client_address_witness :
  let negotiated := ProtocolNegotiated (Some "h3-22"%string) in
  let q := {| Scripted.sc_host_cid := replicate 8 x00;
              Scripted.sc_events := [];
              Scripted.sc_outbox := [];
              Scripted.sc_timer := Some 42%nat;
              Scripted.sc_close_at := Some 90%nat;
              Scripted.sc_on_datagram := [negotiated];
              Scripted.sc_on_timer := [negotiated] |} in
  let s := Scripted.one_connection (replicate 8 x00) q in
  let data := [x40; x00; x00; x00; x00; x00; x00; x00; x00; x00] in
  (∃ s' h, @_handle_timer Scripted.engine 1 0%nat s = Return tt s' ∧
           http_connections s' !! 0%nat = Some h ∧ h3_client h = None) ∧
  (∃ s' h, @handle Scripted.engine 1 (RawData data Scripted.peer) s = Return tt s' ∧
           http_connections s' !! 0%nat = Some h ∧ h3_client h = Scripted.peer).
Proof.
  intros negotiated q s data.
  destruct (@C10_session_client_address Scripted.engine 1 0%nat s q
              (Scripted.pop (Scripted.expire 0 q)).2 90%nat [negotiated])
    as (Htimer & Hknown & _).
  - apply lookup_singleton_eq.
  - reflexivity.
  - reflexivity.
  - reflexivity.
  - discriminate.
  - split; [exact Htimer|].
    apply (Hknown data Scripted.peer
             {| version := None; packet_type := 64;
                destination_cid := replicate 8 x00; source_cid := [] |}
             s 0%nat q [negotiated]
             (Scripted.pop (Scripted.receive data Scripted.peer 0 q)).2).
    + reflexivity.
    + reflexivity.
    + apply lookup_singleton_eq.
    + apply lookup_singleton_eq.
    + reflexivity.
    + reflexivity.
    + discriminate.
Defined.

(** ** Further properties of the class *)

Section Coverage.
Context `{Engine}.

Lemma dispatch_events_registry c client evs s s1 :
  dispatch_events c client evs s = Return tt s1 →
  connections s1 = registry_after c evs (connections s).
Proof.
  revert s; induction evs as [|e evs IH]; intros s.
  - by intros [= <-].
  - rewrite dispatch_events_cons. intros (s0 & He & Hs0).
    apply dispatch_event_returns in He as (_ & Hc & _).
    rewrite (IH _ Hs0), Hc. by destruct e.
Qed.

Lemma registry_after_frame (c : ConnRef) (evs : list QuicEvent)
    (registry : gmap bytes ConnRef) (k : bytes) :
  k ∉ named evs → registry_after c evs registry !! k = registry !! k.
Proof.
  revert registry; induction evs as [|e evs IH]; intros registry Hk; [done|].
  destruct e as [i|i| | |]; simpl in *; try by apply IH.
  - apply not_elem_of_union in Hk as [Hi Hk]. rewrite IH by done.
    apply lookup_insert_ne. intros ->. by apply Hi, elem_of_singleton.
  - apply not_elem_of_union in Hk as [Hi Hk]. rewrite IH by done.
    apply lookup_delete_ne. intros ->. by apply Hi, elem_of_singleton.
Qed.

Lemma registry_after_owner (c : ConnRef) (evs : list QuicEvent)
    (registry : gmap bytes ConnRef) (k : bytes) (c' : ConnRef) :
  registry_after c evs registry !! k = Some c' →
  c' = c ∨ ((k ∉ named evs) ∧ registry !! k = Some c').
Proof.
  revert registry; induction evs as [|e evs IH]; intros registry Hk.
  - right. split; [apply not_elem_of_empty|done].
  - destruct e as [i|i| | |]; simpl in *; try by apply IH.
    + destruct (IH _ Hk) as [->|[Hn Hl]]; [by left|].
      destruct (decide (i = k)) as [->|Hne].
      * rewrite lookup_insert_eq in Hl. left. congruence.
      * rewrite lookup_insert_ne in Hl by done. right. split; [|done].
        apply not_elem_of_union. split; [|done]. by intros ?%elem_of_singleton.
    + destruct (IH _ Hk) as [->|[Hn Hl]]; [by left|].
      destruct (decide (i = k)) as [->|Hne].
      * by rewrite lookup_delete_eq in Hl.
      * rewrite lookup_delete_ne in Hl by done. right. split; [|done].
        apply not_elem_of_union. split; [|done]. by intros ?%elem_of_singleton.
Qed.

Lemma flushed_heap c q s :
  heap (flushed c q s) = <[c := (datagrams_to_send (now (clock s)) q).2]> (heap s).
Proof.
  unfold flushed. destruct (datagrams_to_send (now (clock s)) q) as [ds q1].
  by destruct (get_timer q1).
Qed.

(** The loop on the engine, when a turn removes an absent identifier: the
    events after that one stay with the connection. *)
Lemma drain_raises_rest fuel c client s q pre i post q' s0 :
  heap s !! c = Some q →
  pending (S fuel) q = Some (pre ++ ConnectionIdRetired i :: post, q') →
  dispatch_events c client pre s = Return tt s0 →
  connections s0 !! i = None →
  ∃ q'' k, drain fuel c client s = Raise (KeyError i) (set_heap (insert c q'') s0) ∧
           pending k q'' = Some (post, q').
Proof.
  revert s q fuel s0; induction pre as [|e pre IH]; intros s q fuel s0 Hq Hp Hd Hi.
  - injection Hd as <-. simpl in Hp.
    destruct (next_event q) as [[e|] q1] eqn:Hn; [|done].
    destruct fuel as [|fuel]; [done|].
    destruct (pending (S fuel) q1) as [[es q2]|] eqn:E; [|done].
    simplify_eq.
    exists q1, (S fuel). split; [|exact E].
    unfold drain, bind at 1, call. rewrite Hq, Hn.
    cbn [_handle_events_loop]. unfold bind at 1.
    by rewrite dispatch_event_heap, dispatch_event_retired, Hi.
  - apply dispatch_events_cons in Hd as (s2 & He & Hs2).
    cbn [app] in Hp. simpl in Hp.
    destruct (next_event q) as [[e'|] q1] eqn:Hn; [|done].
    destruct fuel as [|fuel]; [done|].
    destruct (pending (S fuel) q1) as [[es q2]|] eqn:E; [|done].
    simplify_eq.
    destruct (IH (set_heap (insert c q1) s2) q1 fuel (set_heap (insert c q1) s0))
      as (q'' & k & Hrun & Hk).
    + apply lookup_insert_eq.
    + exact E.
    + by rewrite dispatch_events_heap, Hs2.
    + exact Hi.
    + exists q'', k. split; [|exact Hk].
      unfold drain, bind at 1, call. rewrite Hq, Hn.
      cbn [_handle_events_loop]. unfold bind at 1.
      rewrite dispatch_event_heap, He. simpl.
      change (drain fuel c client (set_heap (insert c q1) s2)
              = Raise (KeyError i) (set_heap (insert c q'') s0)).
      by rewrite Hrun, set_heap_insert_insert.
Qed.

Lemma terminated_well_behaved (live : gset bytes) (evs : list QuicEvent) :
  (∀ e, e ∈ evs → ∃ code reason, e = ConnectionTerminated code reason) →
  well_behaved live evs = true ∧ negotiations evs = O ∧ named evs = ∅.
Proof.
  induction evs as [|e evs IH]; intros Hall; [done|].
  destruct (Hall e) as (code & reason & ->); [apply list_elem_of_here|].
  simpl. apply IH. intros e He. apply Hall. by apply list_elem_of_further.
Qed.

End Coverage.

(** X1. [send_all] reads the clock once, takes what the connection has to
    send at that time and gives each datagram to [send] with its own
    address, in the engine's order and after everything sent before; a
    connection with nothing to send adds nothing. It touches neither the
    registry, nor the sessions, nor the callbacks. *)
Theorem X1_send_all_in_order `{Engine} (c : ConnRef) (s : State) (q : QuicConnection) :
  heap s !! c = Some q →
  let out := datagrams_to_send (now (clock s)) q in
  send_all c s
  = Return tt
      (set_sent (λ l, l ++ map (λ d, RawData d.1 d.2) out.1)
         (set_heap (insert c out.2) (set_clock S s))).
Proof.
  intros Hq out. unfold send_all, bind, self_now, call. simpl. rewrite Hq.
  subst out. destruct (datagrams_to_send (now (clock s)) q) as [ds q1].
  apply send_each_spec.
Qed.

Lemma X1_send_all_in_order_witness :
  let q := {| Scripted.sc_host_cid := replicate 8 x00;
              Scripted.sc_events := [];
              Scripted.sc_outbox := [([x0a], Scripted.peer); ([x0b], None)];
              Scripted.sc_timer := None;
              Scripted.sc_close_at := None;
              Scripted.sc_on_datagram := [];
              Scripted.sc_on_timer := [] |} in
  ∃ s', @send_all Scripted.engine 0%nat (Scripted.one_connection [x01] q) = Return tt s' ∧
        sent s' = [RawData [x0a] Scripted.peer; RawData [x0b] None] ∧
        scheduled s' = [] ∧ clock s' = 1%nat.
Proof.
  intros q. eexists. split.
  - apply (@X1_send_all_in_order Scripted.engine 0%nat (Scripted.one_connection [x01] q) q).
    apply lookup_singleton_eq.
  - repeat split.
Defined.

(** X2. The registry a batch leaves is the one the drained events dictate:
    each [ConnectionIdIssued] stores the connection under the identifier,
    each [ConnectionIdRetired] removes the identifier, in order. An
    identifier that no drained event names keeps what it had, and an
    identifier never comes to lead to another connection than the one of
    the batch. *)
Theorem X2_registry_after_batch `{Engine} (fuel : nat) (c : ConnRef) (client : Address)
    (s : State) (q q' : QuicConnection) (evs : list QuicEvent) :
  heap s !! c = Some q →
  pending (S fuel) q = Some (evs, q') →
  well_behaved (dom (connections s)) evs = true →
  ∃ s', _handle_events fuel c client s = Return tt s' ∧
        connections s' = registry_after c evs (connections s) ∧
        (∀ k, k ∉ named evs → connections s' !! k = connections s !! k) ∧
        (∀ k c', connections s' !! k = Some c' →
                 c' = c ∨ connections s !! k = Some c').
Proof.
  intros Hq Hp Hwb.
  destruct (batch_returns fuel c client s q evs q' Hq Hp Hwb) as (s1 & Hd & Hrun).
  eexists. split; [exact Hrun|].
  destruct (flushed_frame c q' (set_heap (insert c q') s1)) as (-> & _).
  simpl. rewrite (dispatch_events_registry _ _ _ _ _ Hd).
  split; [done|]. split.
  - intros k Hk. by apply registry_after_frame.
  - intros k c' Hk. apply registry_after_owner in Hk as [->|[_ Hk]]; auto.
Qed.

Lemma X2_registry_after_batch_witness :
  let evs := [ConnectionIdIssued [x02]; ConnectionIdRetired [x01]] in
  let s := Scripted.one_connection [x01] (Scripted.queued evs) in
  ∃ s', @_handle_events Scripted.engine 2 0%nat Scripted.peer s = Return tt s' ∧
        connections s' = delete [x01] (<[[x02] := 0%nat]> (connections s)).
Proof.
  intros evs s.
  destruct (@X2_registry_after_batch Scripted.engine 2 0%nat Scripted.peer s
              (Scripted.queued evs) (Scripted.queued []) evs)
    as (s' & Hrun & Hreg & _).
  - apply lookup_singleton_eq.
  - reflexivity.
  - vm_compute. reflexivity.
  - exists s'. split; [exact Hrun|exact Hreg].
Defined.

(** X3. A batch of one connection takes from every other connection exactly
    the identifiers its events name: an identifier issued to the connection
    of the batch is re-pointed to it without notice, whoever held it, and an
    identifier it retires is removed, whoever held it. *)
Theorem X3_other_connections_lose_named `{Engine} (fuel : nat) (c c0 : ConnRef)
    (client : Address) (s : State) (q q' : QuicConnection) (evs : list QuicEvent) :
  heap s !! c = Some q →
  pending (S fuel) q = Some (evs, q') →
  well_behaved (dom (connections s)) evs = true →
  c0 ≠ c →
  ∃ s', _handle_events fuel c client s = Return tt s' ∧
        identifiers_of c0 (connections s')
        = identifiers_of c0 (connections s) ∖ named evs.
Proof.
  intros Hq Hp Hwb Hne.
  destruct (batch_returns fuel c client s q evs q' Hq Hp Hwb) as (s1 & Hd & Hrun).
  eexists. split; [exact Hrun|].
  destruct (flushed_frame c q' (set_heap (insert c q') s1)) as (-> & _).
  simpl. rewrite (dispatch_events_registry _ _ _ _ _ Hd).
  apply set_eq; intros k.
  rewrite elem_of_difference, !elem_of_identifiers_of. split.
  - intros Hk. apply registry_after_owner in Hk as [?|[? ?]]; [congruence|done].
  - intros [Hk Hn]. by rewrite registry_after_frame.
Qed.

Lemma X3_other_connections_lose_named_witness :
  let evs := [ConnectionIdIssued [x01]; ConnectionIdRetired [x01]] in
  let s := set_heap (insert 1%nat (Scripted.queued evs))
             (Scripted.one_connection [x01] (Scripted.queued [])) in
  identifiers_of 0%nat (connections s) = {[ [x01] ]} ∧
  ∃ s', @_handle_events Scripted.engine 2 1%nat Scripted.peer s = Return tt s' ∧
        identifiers_of 0%nat (connections s') = {[ [x01] ]} ∖ named evs.
Proof.
  intros evs s.
  assert (identifiers_of 0%nat (connections s) = {[ [x01] ]}) as Hids.
  { apply set_eq; intros k. rewrite elem_of_identifiers_of, elem_of_singleton.
    simpl. rewrite lookup_singleton_Some. split; [by intros [<- _]|by intros ->]. }
  split; [exact Hids|].
  destruct (@X3_other_connections_lose_named Scripted.engine 2 1%nat 0%nat Scripted.peer s
              (Scripted.queued evs) (Scripted.queued []) evs)
    as (s' & Hrun & Hlost).
  - apply lookup_insert_eq.
  - reflexivity.
  - vm_compute. reflexivity.
  - discriminate.
  - exists s'. split; [exact Hrun|]. by rewrite Hlost, Hids.
Defined.

(** X4. Termination cleans nothing up. A batch that drains
    [ConnectionTerminated] events only returns with the registry as it was:
    the connection stays reachable under all its identifiers; its object
    stays in place; and its session, if it has one, stays in the session
    map, having consumed the events. *)
Theorem X4_termination_cleans_nothing `{Engine} (fuel : nat) (c : ConnRef) (client : Address)
    (s : State) (q q' : QuicConnection) (evs : list QuicEvent) :
  heap s !! c = Some q →
  pending (S fuel) q = Some (evs, q') →
  (∀ e, e ∈ evs → ∃ code reason, e = ConnectionTerminated code reason) →
  ∃ s', _handle_events fuel c client s = Return tt s' ∧
        connections s' = connections s ∧
        is_Some (heap s' !! c) ∧
        http_connections s' !! c = h3_extend evs <$> http_connections s !! c ∧
        (∀ c', c' ≠ c → http_connections s' !! c' = http_connections s !! c').
Proof.
  intros Hq Hp Hall.
  destruct (terminated_well_behaved (dom (connections s)) evs Hall) as (Hwb & Hn & Hnamed).
  destruct (batch_returns fuel c client s q evs q' Hq Hp Hwb) as (s1 & Hd & Hrun).
  eexists. split; [exact Hrun|].
  destruct (flushed_frame c q' (set_heap (insert c q') s1)) as (-> & -> & _).
  rewrite flushed_heap, lookup_insert_eq. simpl.
  split; [|split; [by eauto|split]].
  - rewrite (dispatch_events_registry _ _ _ _ _ Hd).
    apply map_eq; intros k. apply registry_after_frame.
    rewrite Hnamed. apply not_elem_of_empty.
  - apply negotiations_zero in Hn. by eapply dispatch_events_quiet.
  - by apply dispatch_events_frame in Hd as (_ & _ & ?).
Qed.

Lemma X4_termination_cleans_nothing_witness :
  let evs := [ConnectionTerminated 0 "bye"%string] in
  let s := Scripted.one_connection [x01] (Scripted.queued evs) in
  ∃ s', @_handle_events Scripted.engine 1 0%nat Scripted.peer s = Return tt s' ∧
        connections s' = connections s ∧ is_Some (heap s' !! 0%nat).
Proof.
  intros evs s.
  destruct (@X4_termination_cleans_nothing Scripted.engine 1 0%nat Scripted.peer s
              (Scripted.queued evs) (Scripted.queued []) evs)
    as (s' & Hrun & Hreg & Hobj & _).
  - apply lookup_singleton_eq.
  - reflexivity.
  - intros e He. apply list_elem_of_singleton in He. subst e. by eexists _, _.
  - exists s'. done.
Defined.



(** X6. When a [ConnectionIdRetired] event names an identifier the registry
    does not hold, [_handle_events] raises [KeyError] with the registry as
    the events before had made it. The failing event reaches no session.
    Of the events before it, a session that was there from the start has
    consumed them all when none of them is a [ProtocolNegotiated] event;
    otherwise the session in place is the one the last such event built,
    and it has consumed that event and those between it and the failing
    one. The events after the failing one are not lost: they are still
    with the connection, for the next batch. *)
Theorem X6_key_error_keeps_the_rest `{Engine} (fuel : nat) (c : ConnRef) (client : Address)
    (s : State) (q q' : QuicConnection) (pre post : list QuicEvent) (i : bytes) :
  heap s !! c = Some q →
  pending (S fuel) q = Some (pre ++ ConnectionIdRetired i :: post, q') →
  well_behaved (dom (connections s)) pre = true →
  registry_after c pre (connections s) !! i = None →
  ∃ s' q'' k,
    _handle_events fuel c client s = Raise (KeyError i) s' ∧
    heap s' !! c = Some q'' ∧
    pending k q'' = Some (post, q') ∧
    connections s' = registry_after c pre (connections s) ∧
    (negotiations pre = O →
     http_connections s' !! c = h3_extend pre <$> http_connections s !! c) ∧
    (∀ before e after,
       pre = before ++ e :: after → is_negotiated e = true → negotiations after = O →
       ∃ h, http_connections s' !! c = Some h ∧ h3_handled h = e :: after).
Proof.
  intros Hq Hp Hwb Hi.
  destruct (well_behaved_prefix c client pre [] (dom (connections s)) s)
    as (s0 & _ & Hd & _).
  { intros j Hj. by apply elem_of_dom. }
  { by rewrite app_nil_r. }
  pose proof (dispatch_events_registry _ _ _ _ _ Hd) as Hreg.
  rewrite <- Hreg in Hi.
  destruct (drain_raises_rest fuel c client s q pre i post q' s0 Hq Hp Hd Hi)
    as (q'' & k & Hrun & Hk).
  exists (set_heap (insert c q'') s0), q'', k.
  split; [by unfold _handle_events, bind; rewrite Hrun|].
  simpl. split; [apply lookup_insert_eq|]. split; [exact Hk|]. split; [exact Hreg|].
  split.
  - intros Hn. apply negotiations_zero in Hn. by eapply dispatch_events_quiet.
  - intros before e after -> He Hn. apply negotiations_zero in Hn.
    destruct (dispatch_events_negotiated _ _ _ _ _ _ _ He Hn Hd) as (s00 & _ & ->).
    eexists. split; reflexivity.
Qed.

Lemma X6_key_error_keeps_the_rest_witness :
  let negotiated := ProtocolNegotiated (Some "h3-22"%string) in
  let pre := [OtherQuicEvent 3; negotiated; ConnectionIdIssued [x02]] in
  let post := [OtherQuicEvent 5; ConnectionIdIssued [x03]] in
  let q := Scripted.queued (pre ++ ConnectionIdRetired [x09] :: post) in
  ∃ s' q'' k h,
    @_handle_events Scripted.engine 6 0%nat Scripted.peer
      (Scripted.one_connection [x01] q) = Raise (KeyError [x09]) s' ∧
    heap s' !! 0%nat = Some q'' ∧
    @pending Scripted.engine k q'' = Some (post, Scripted.queued []) ∧
    http_connections s' !! 0%nat = Some h ∧
    h3_handled h = [negotiated; ConnectionIdIssued [x02]].
Proof.
  intros negotiated pre post q.
  destruct (@X6_key_error_keeps_the_rest Scripted.engine 6 0%nat Scripted.peer
              (Scripted.one_connection [x01] q) q (Scripted.queued [])
              pre post [x09])
    as (s' & q'' & k & Hrun & Hheap & Hk & _ & _ & Hsession).
  - apply lookup_singleton_eq.
  - reflexivity.
  - reflexivity.
  - vm_compute. reflexivity.
  - destruct (Hsession [OtherQuicEvent 3] negotiated [ConnectionIdIssued [x02]])
      as (h & Hh & Hl); try reflexivity.
    exists s', q'', k, h. done.
Defined.





Section Invariant.
Context `{Engine}.

Lemma sound_mono {A} (P Q : State → Prop) (o : Outcome A) :
  (∀ s, P s → Q s) → sound P o → sound Q o.
Proof. intros HPQ. destruct o; simpl; auto. Qed.

Lemma well_formed_set_heap c q s :
  well_formed s → (c < allocated s)%nat → well_formed (set_heap (insert c q) s).
Proof.
  intros (Hh & Hr & Hs & Hc) Hlt. split; [|done].
  intros c'. simpl. destruct (decide (c = c')) as [<-|Hne].
  - rewrite lookup_insert_eq. split; [done|eauto].
  - rewrite lookup_insert_ne by done. apply Hh.
Qed.

Lemma well_formed_object c s :
  well_formed s → (c < allocated s)%nat → ∃ q, heap s !! c = Some q.
Proof. intros (Hh & _) Hlt. by apply Hh in Hlt as [q ?]; eauto. Qed.

Lemma well_formed_dispatch_event c client e s :
  well_formed s → (c < allocated s)%nat →
  sound (λ s', well_formed s' ∧ allocated s' = allocated s) (dispatch_event c client e s).
Proof.
  intros Hwf Hlt.
  destruct (dispatch_event_outcome c client e s) as [[s1 Hs1]|(i & -> & _ & ->)];
    [|by simpl].
  rewrite Hs1. simpl.
  apply dispatch_event_returns in Hs1
    as ((Hheap & _ & Hsched & _ & Halloc & _) & Hreg & Hbuilt & Hsess & Hothers).
  destruct Hwf as (Hh & Hr & Hs & Hc).
  split; [|done]. split; [|split; [|split]].
  - intros c'. rewrite Hheap, Halloc. apply Hh.
  - intros k c'. rewrite Hreg, Halloc. destruct e as [i|i| | |]; try apply Hr.
    + destruct (decide (i = k)) as [->|Hne].
      * rewrite lookup_insert_eq. by intros [= <-].
      * rewrite lookup_insert_ne by done. apply Hr.
    + intros Hk. apply lookup_delete_Some in Hk as [_ Hk]. by eapply Hr.
  - intros c' h. rewrite Halloc. destruct (decide (c' = c)) as [->|Hne].
    + rewrite Hsess, Hbuilt. destruct (is_negotiated e).
      * intros [= <-]. simpl. repeat split; [done|lia].
      * destruct (http_connections s !! c) as [h0|] eqn:E; [|done].
        intros [= <-]. simpl. by apply Hs.
    + rewrite Hothers by done. intros Hh0. apply Hs in Hh0 as (? & ? & ?).
      repeat split; [done|done|]. rewrite Hbuilt. destruct (is_negotiated e); lia.
  - intros t c'. rewrite Hsched, Halloc. apply Hc.
Qed.

Lemma well_formed_loop fuel c client ev s :
  well_formed s → (c < allocated s)%nat →
  sound (λ s', well_formed s' ∧ allocated s' = allocated s)
    (_handle_events_loop fuel c client ev s).
Proof.
  revert ev s; induction fuel as [|fuel IH]; intros [e|] s Hwf Hlt; try done.
  cbn [_handle_events_loop]. unfold bind at 1.
  pose proof (well_formed_dispatch_event c client e s Hwf Hlt) as He.
  destruct (dispatch_event c client e s) as [[] s1|x s1| |]; simpl in He; try done.
  - destruct He as [Hwf1 Ha1]. unfold bind, call.
    destruct (well_formed_object c s1 Hwf1) as [q ->]; [lia|].
    destruct (next_event q) as [ev' q1].
    eapply sound_mono; [|apply IH].
    + simpl. intros s2 [? ->]. done.
    + apply well_formed_set_heap; [done|lia].
    + simpl. lia.
Qed.

Lemma well_formed_flushed c q s :
  well_formed s → (c < allocated s)%nat → well_formed (flushed c q s).
Proof.
  intros Hwf Hlt. unfold flushed.
  destruct (datagrams_to_send (now (clock s)) q) as [ds q1].
  assert (well_formed (set_heap (insert c q1) s)) as (Hh & Hr & Hs & Hc)
    by by apply well_formed_set_heap.
  destruct (get_timer q1) as [t|]; [|done].
  split; [done|]. split; [done|]. split; [done|].
  intros t' c'. simpl. rewrite elem_of_app, list_elem_of_singleton.
  intros [Hin|[= -> ->]]; [by eapply Hc|done].
Qed.

Lemma well_formed_handle_events fuel c client s :
  well_formed s → (c < allocated s)%nat →
  sound well_formed (_handle_events fuel c client s).
Proof.
  intros Hwf Hlt. unfold _handle_events, bind at 1, drain, bind, call.
  destruct (well_formed_object c s Hwf Hlt) as [q ->].
  destruct (next_event q) as [ev q1].
  pose proof (well_formed_loop fuel c client ev (set_heap (insert c q1) s)
                (well_formed_set_heap c q1 s Hwf Hlt) Hlt) as Hl.
  destruct (_handle_events_loop fuel c client ev (set_heap (insert c q1) s))
    as [[] s1|x s1| |]; simpl in Hl; try done.
  - destruct Hl as [Hwf1 Ha1].
    destruct (well_formed_object c s1 Hwf1) as [q2 Hq2]; [simpl in Ha1; lia|].
    rewrite (flush_and_schedule_spec c q2 s1 Hq2). simpl.
    apply well_formed_flushed; [done|simpl in Ha1; lia].
  - by destruct Hl.
Qed.

Lemma well_formed_initial (k1 k2 : bytes) s :
  well_formed s →
  well_formed
    (set_connections (λ _, <[k2 := allocated s]> (<[k1 := allocated s]> (connections s)))
       (set_allocated S (set_heap (insert (allocated s) (QuicConnection_init (allocated s))) s))).
Proof.
  intros (Hh & Hr & Hs & Hc). split; [|split; [|split]]; simpl.
  - intros c. destruct (decide (allocated s = c)) as [<-|Hne].
    + rewrite lookup_insert_eq. split; [lia|eauto].
    + rewrite lookup_insert_ne by done. rewrite Hh. lia.
  - intros k c Hk.
    destruct (decide (k2 = k)) as [->|Hne2].
    { rewrite lookup_insert_eq in Hk. injection Hk as <-. lia. }
    rewrite lookup_insert_ne in Hk by done.
    destruct (decide (k1 = k)) as [->|Hne1].
    { rewrite lookup_insert_eq in Hk. injection Hk as <-. lia. }
    rewrite lookup_insert_ne in Hk by done. apply Hr in Hk. lia.
  - intros c h Hh0. apply Hs in Hh0 as (? & ? & ?). repeat split; [lia|done|done].
  - intros t c Hin. apply Hc in Hin. lia.
Qed.

End Invariant.

(** X9. [handle] keeps the state well formed, whatever the event and
    however it ends (returning, or raising the parser's error or a
    [KeyError]): the registry, the session map and the callbacks still refer
    only to connections that were built and whose objects are there, and
    every session is stored under the connection it was built for. It never
    calls a method through a reference that has no object. *)
Theorem X9_handle_keeps_well_formed `{Engine} (fuel : nat) (event : Event) (s : State) :
  well_formed s →
  sound well_formed (handle fuel event s).
Proof.
  intros Hwf. destruct event as [data address| |]; [|done|done].
  destruct (pull_quic_header data 8) as [e|header] eqn:Hp.
  { unfold handle, bind. by rewrite Hp. }
  destruct (unsupported_version header) eqn:Hv.
  { unfold handle, bind. rewrite Hp, Hv. exact Hwf. }
  destruct (connections s !! destination_cid header) as [c|] eqn:Hc.
  - assert (c < allocated s)%nat as Hlt by (destruct Hwf as (_ & Hr & _); by eapply Hr).
    destruct (well_formed_object c s Hwf Hlt) as [q Hq].
    rewrite (handle_known fuel data address s header c q Hp Hv Hc Hq).
    apply well_formed_handle_events; [|done].
    by apply well_formed_set_heap.
  - destruct (decide (packet_type header = PACKET_TYPE_INITIAL)) as [Ht|Ht].
    + rewrite (handle_initial fuel data address s header Hp Hv Hc Ht).
      apply well_formed_handle_events; [|simpl; lia].
      apply well_formed_set_heap; [|simpl; lia].
      apply (well_formed_initial (destination_cid header)
               (host_cid (QuicConnection_init (allocated s))) s Hwf).
    + unfold handle, bind. rewrite Hp, Hv. unfold connections_get.
      rewrite Hc, bool_decide_eq_false_2 by done. exact Hwf.
Qed.

Lemma X9_handle_keeps_well_formed_witness :
  let data := [xc0; x16; x01; x02; x03; x04; x05; x06; x07; x08] in
  @well_formed Scripted.engine Scripted.fresh ∧
  @sound Scripted.engine unit well_formed
    (@handle Scripted.engine 1 (RawData data Scripted.peer) Scripted.fresh).
Proof.
  intros data.
  assert (@well_formed Scripted.engine Scripted.fresh) as Hwf.
  { split; [|split; [|split]]; simpl.
    - intros c. rewrite lookup_empty. split; [by intros [? ?]|lia].
    - intros k c. by rewrite lookup_empty.
    - intros c h. by rewrite lookup_empty.
    - intros t c Hin. by apply not_elem_of_nil in Hin. }
  split; [exact Hwf|].
  apply (@X9_handle_keeps_well_formed Scripted.engine 1 (RawData data Scripted.peer)
           Scripted.fresh Hwf).
Defined.

(** X10. So does the timer callback of any connection that was built (the
    callbacks [_handle_events] registers are all of this kind): when it
    fires, however the batch it may run ends, the state is still well
    formed, and no method is called through a reference without object. *)
Theorem X10_timer_keeps_well_formed `{Engine} (fuel : nat) (c : ConnRef) (s : State) :
  well_formed s →
  (c < allocated s)%nat →
  sound well_formed (_handle_timer fuel c s).
Proof.
  intros Hwf Hlt.
  destruct (well_formed_object c s Hwf Hlt) as [q Hq].
  destruct (_close_at q) as [d|] eqn:Hd.
  - rewrite (handle_timer_active fuel c s q d Hq Hd).
    apply well_formed_handle_events; [|done].
    by apply well_formed_set_heap.
  - by rewrite (handle_timer_idle fuel c s q Hq Hd).
Qed.

Lemma X10_timer_keeps_well_formed_witness :
  let q := {| Scripted.sc_host_cid := replicate 8 x00;
              Scripted.sc_events := [];
              Scripted.sc_outbox := [];
              Scripted.sc_timer := Some 42%nat;
              Scripted.sc_close_at := Some 90%nat;
              Scripted.sc_on_datagram := [];
              Scripted.sc_on_timer := [ConnectionIdRetired [x09]] |} in
  let s := Scripted.one_connection [x01] q in
  @well_formed Scripted.engine s ∧
  @sound Scripted.engine unit well_formed (@_handle_timer Scripted.engine 1 0%nat s).
Proof.
  intros q s.
  assert (@well_formed Scripted.engine s) as Hwf.
  { split; [|split; [|split]]; simpl.
    - intros c. destruct (decide (c = 0%nat)) as [->|Hne].
      + rewrite lookup_singleton_eq. split; [lia|eauto].
      + rewrite lookup_singleton_ne by done. split; [by intros [? ?]|lia].
    - intros k c Hk. apply lookup_singleton_Some in Hk as [_ <-]. lia.
    - intros c h. by rewrite lookup_empty.
    - intros t c Hin. by apply not_elem_of_nil in Hin. }
  split; [exact Hwf|].
  apply (@X10_timer_keeps_well_formed Scripted.engine 1 0%nat s Hwf). simpl. lia.
Defined.

Section Registry.
Context `{Engine}.

Lemma registry_after_app (c : ConnRef) (evs1 evs2 : list QuicEvent)
    (registry : gmap bytes ConnRef) :
  registry_after c (evs1 ++ evs2) registry
  = registry_after c evs2 (registry_after c evs1 registry).
Proof.
  revert registry; induction evs1 as [|e evs1 IH]; intros registry; [done|].
  destruct e; simpl; apply IH.
Qed.

Lemma identifiers_after_registry (c : ConnRef) (evs : list QuicEvent)
    (registry : gmap bytes ConnRef) :
  identifiers_of c (registry_after c evs registry)
  = identifiers_after evs (identifiers_of c registry).
Proof.
  revert registry; induction evs as [|e evs IH]; intros registry; [done|].
  destruct e as [i|i| | |]; simpl; rewrite ?IH; try done.
  - by rewrite identifiers_of_insert, (union_comm_L {[i]}).
  - by rewrite identifiers_of_delete.
Qed.

Lemma well_behaved_app (live : gset bytes) (evs1 evs2 : list QuicEvent) :
  well_behaved live (evs1 ++ evs2)
  = well_behaved live evs1 && well_behaved (identifiers_after evs1 live) evs2.
Proof.
  revert live; induction evs1 as [|e evs1 IH]; intros live; [done|].
  destruct e as [i|i| | |]; simpl; rewrite ?IH; try done.
  by rewrite andb_assoc.
Qed.

(** The live identifiers stay in the registry along a well-behaved
    stream. *)
Lemma live_identifiers_kept (c : ConnRef) (evs : list QuicEvent) (live : gset bytes)
    (registry : gmap bytes ConnRef) :
  (∀ i, i ∈ live → is_Some (registry !! i)) →
  well_behaved live evs = true →
  ∀ i, i ∈ identifiers_after evs live → is_Some (registry_after c evs registry !! i).
Proof.
  revert live registry; induction evs as [|e evs IH]; intros live registry Hlive Hwb;
    [done|].
  destruct e as [j|j| | |]; simpl in *; try by apply IH.
  - apply IH; [|done]. intros i Hi. destruct (decide (j = i)) as [->|Hne].
    + rewrite lookup_insert_eq. eauto.
    + rewrite lookup_insert_ne by done. apply Hlive.
      apply elem_of_union in Hi as [Hi|Hi]; [done|].
      by apply elem_of_singleton in Hi.
  - apply andb_true_iff in Hwb as [_ Hwb].
    apply IH; [|done]. intros i Hi. apply elem_of_difference in Hi as [Hi Hne].
    rewrite lookup_delete_ne; [by apply Hlive|].
    intros ->. by apply Hne, elem_of_singleton.
Qed.

End Registry.

(** C6. Take a batch on a stream of events from an engine that retires
    only live identifiers: identifiers that are issued and not retired
    since, those of earlier batches being in the registry still. The batch
    returns, and the registry it leaves is the one it had, changed by the
    events in order: a [ConnectionIdIssued] stores the connection under
    the identifier, a [ConnectionIdRetired] removes the identifier. Every
    [ConnectionIdRetired] event finds its entry there when its turn comes,
    and removes it. Every identifier of the registry left leads to one
    connection, and which one is settled: the connection of the batch for
    the identifiers it holds after the events, and otherwise the connection
    it led to before, provided no event names it. The identifiers of the
    connection of the batch are a set that each issue extends by one and
    each retirement reduces by one, so one connection may be known under
    none, one or many. And the live identifiers are in the registry again
    when the batch ends, ready for the next one. *)
Theorem C6_registry_issue_retire `{Engine} (fuel : nat) (c : ConnRef) (client : Address)
    (s : State) (q q' : QuicConnection) (evs : list QuicEvent) (live : gset bytes) :
  heap s !! c = Some q →
  pending (S fuel) q = Some (evs, q') →
  (∀ i, i ∈ live → is_Some (connections s !! i)) →
  well_behaved live evs = true →
  ∃ s',
    _handle_events fuel c client s = Return tt s' ∧
    connections s' = registry_after c evs (connections s) ∧
    (∀ pre i post, evs = pre ++ ConnectionIdRetired i :: post →
       is_Some (registry_after c pre (connections s) !! i) ∧
       registry_after c (pre ++ [ConnectionIdRetired i]) (connections s) !! i = None ∧
       (i ∉ named post → connections s' !! i = None)) ∧
    (∀ k c', connections s' !! k = Some c' ↔
       (c' = c ∧ k ∈ identifiers_after evs (identifiers_of c (connections s))) ∨
       (c' ≠ c ∧ (k ∉ named evs) ∧ connections s !! k = Some c')) ∧
    identifiers_of c (connections s')
    = identifiers_after evs (identifiers_of c (connections s)) ∧
    (∀ i, i ∈ identifiers_after evs live → is_Some (connections s' !! i)).
Proof.
  intros Hq Hp Hlive Hwb.
  destruct (well_behaved_prefix c client evs [] live s Hlive) as (s1 & _ & Hd & _).
  { by rewrite app_nil_r. }
  eexists. split; [by eapply handle_events_returns|].
  destruct (flushed_frame c q' (set_heap (insert c q') s1)) as (-> & _).
  simpl. rewrite (dispatch_events_registry _ _ _ _ _ Hd).
  split; [done|]. split; [|split; [|split]].
  - intros pre i post ->.
    rewrite well_behaved_app in Hwb. apply andb_true_iff in Hwb as [Hpre Hrest].
    simpl in Hrest. apply andb_true_iff in Hrest as [Hin _].
    apply bool_decide_eq_true in Hin.
    split; [by eapply live_identifiers_kept|].
    rewrite !registry_after_app. simpl.
    split; [apply lookup_delete_eq|].
    intros Hn. rewrite registry_after_frame by done. apply lookup_delete_eq.
  - intros k c'. split.
    + intros Hk. destruct (decide (c' = c)) as [->|Hne].
      * left. split; [done|].
        rewrite <- identifiers_after_registry. by apply elem_of_identifiers_of.
      * right. apply registry_after_owner in Hk as [?|[? ?]]; done.
    + intros [[-> Hk]|(_ & Hn & Hk)].
      * rewrite <- identifiers_after_registry in Hk. by apply elem_of_identifiers_of.
      * by rewrite registry_after_frame.
  - apply identifiers_after_registry.
  - by apply live_identifiers_kept.
Qed.

Lemma C6_registry_issue_retire_witness :
  let evs := [ConnectionIdIssued [x02]; ConnectionIdIssued [x03];
              ConnectionIdRetired [x01]; ConnectionIdRetired [x02]] in
  let s := Scripted.one_connection [x01] (Scripted.queued evs) in
  ∃ s', @_handle_events Scripted.engine 4 0%nat Scripted.peer s = Return tt s' ∧
        connections s' = delete [x02] (delete [x01]
                           (<[[x03] := 0%nat]> (<[[x02] := 0%nat]> (connections s)))) ∧
        connections s' !! [x03] = Some 0%nat ∧
        connections s' !! [x01] = None ∧
        connections s' !! [x02] = None.
Proof.
  intros evs s.
  destruct (@C6_registry_issue_retire Scripted.engine 4 0%nat Scripted.peer s
              (Scripted.queued evs) (Scripted.queued []) evs {[ [x01] ]})
    as (s' & Hrun & Hreg & Hretire & _).
  - apply lookup_singleton_eq.
  - reflexivity.
  - intros i Hi. apply elem_of_singleton in Hi. subst i.
    exists 0%nat. apply lookup_singleton_eq.
  - vm_compute. reflexivity.
  - exists s'. split; [exact Hrun|]. split; [exact Hreg|]. split; [|split].
    + rewrite Hreg. vm_compute. reflexivity.
    + apply (Hretire [ConnectionIdIssued [x02]; ConnectionIdIssued [x03]] [x01]
               [ConnectionIdRetired [x02]]); [reflexivity|].
      simpl. intros Hin. apply elem_of_union in Hin as [Hin|Hin].
      * apply elem_of_singleton in Hin. discriminate Hin.
      * by apply not_elem_of_empty in Hin.
    + apply (Hretire [ConnectionIdIssued [x02]; ConnectionIdIssued [x03];
                      ConnectionIdRetired [x01]] [x02] []); [reflexivity|].
      apply not_elem_of_empty.
Defined.
